(** * ai-radar-mobile: proxy handlers, job registry and voice pipeline

    A shallow embedding of the serverless proxy handlers
    ([api/newsapi.js], the news-data handler, the text-to-speech handler and
    [api/sheets.js]) and of the backend patterns shown in
    [docs/INTERVIEW_GUIDE.md] ([generate], [do_generation], [voice_chat]),
    with the properties the specification states about them. *)

From Stdlib Require Import ZArith String Ascii.
From stdpp Require Import gmap strings list fin_maps relations.

Set Warnings "-register-all".

Local Open Scope string_scope.
Local Open Scope Z_scope.

(** ** Values shared by both halves *)

(** A JSON value, as [JSON.parse] (JavaScript) or [request.json] (Flask)
    hands it to the code.  A number is kept as the decimal text that
    JavaScript writes for it ([String(n)], which [JSON.stringify] prints as
    it is): [0] for a zero of either sign, [45], [-12.5], [1e+21].  Objects
    keep their fields in order; a field is read by its first occurrence. *)
Inductive json : Type :=
  | JNull
  | JBool (b : bool)
  | JNum (text : string)
  | JStr (s : string)
  | JArr (xs : list json)
  | JObj (kvs : list (string * json)).

(** An exception object; the handlers only ever read [err.message]. *)
Record Exn : Type := mkExn { message : string }.

Fixpoint assoc {A : Type} (k : string) (kvs : list (string * A)) : option A :=
  match kvs with
  | [] => None
  | (k', v) :: rest => if String.eqb k k' then Some v else assoc k rest
  end.

(** [contains needle hay]: [needle] occurs in [hay] as a contiguous run. *)
Fixpoint contains (needle hay : string) : bool :=
  String.prefix needle hay
  || match hay with
     | EmptyString => false
     | String _ rest => contains needle rest
     end.

(** ** JavaScript builtins used by the handlers *)

Module JS.

(** Strings are taken as sequences of UTF-8 bytes, which is what
    [encodeURIComponent] escapes. *)

Definition hex_upper (n : N) : ascii :=
  if (n <? 10)%N then ascii_of_N (48 + n) else ascii_of_N (55 + n).

Definition hex_lower (n : N) : ascii :=
  if (n <? 10)%N then ascii_of_N (48 + n) else ascii_of_N (87 + n).

Definition is_alnum (c : ascii) : bool :=
  let n := N_of_ascii c in
  ((48 <=? n) && (n <=? 57) || (65 <=? n) && (n <=? 90)
   || (97 <=? n) && (n <=? 122))%N.

(** The characters [encodeURIComponent] leaves alone:
    [A-Z a-z 0-9 - _ . ! ~ * ' ( )]. *)
Definition uri_unreserved (c : ascii) : bool :=
  is_alnum c
  || existsb (Ascii.eqb c)
       ["-"; "_"; "."; "!"; "~"; "*"; "'"; "("; ")"]%char.

Fixpoint encodeURIComponent (s : string) : string :=
  match s with
  | EmptyString => EmptyString
  | String c rest =>
      if uri_unreserved c then String c (encodeURIComponent rest)
      else
        let n := N_of_ascii c in
        String "%" (String (hex_upper (n / 16)) (String (hex_upper (n mod 16))
          (encodeURIComponent rest)))
  end.

Definition dquote : ascii := Eval cbv in ascii_of_nat 34.
Definition backslash : ascii := Eval cbv in ascii_of_nat 92.

(** The escaping [JSON.stringify] applies inside a string literal. *)
Definition json_escape_char (c : ascii) : string :=
  let n := N_of_ascii c in
  if (n =? 34)%N then String backslash (String dquote EmptyString)
  else if (n =? 92)%N then String backslash (String backslash EmptyString)
  else if (n =? 8)%N then String backslash "b"
  else if (n =? 9)%N then String backslash "t"
  else if (n =? 10)%N then String backslash "n"
  else if (n =? 12)%N then String backslash "f"
  else if (n =? 13)%N then String backslash "r"
  else if (n <? 32)%N then
    String backslash
      ("u00" +:+ String (hex_lower (n / 16))
                   (String (hex_lower (n mod 16)) EmptyString))
  else String c EmptyString.

Fixpoint json_escape (s : string) : string :=
  match s with
  | EmptyString => EmptyString
  | String c rest => json_escape_char c +:+ json_escape rest
  end.

Definition json_quote (s : string) : string :=
  String dquote (json_escape s) +:+ String dquote EmptyString.

Fixpoint JSON_stringify (j : json) : string :=
  match j with
  | JNull => "null"
  | JBool true => "true"
  | JBool false => "false"
  | JNum text => text
  | JStr s => json_quote s
  | JArr xs =>
      "[" +:+
      (fix items (l : list json) : string :=
         match l with
         | [] => EmptyString
         | [x] => JSON_stringify x
         | x :: rest => JSON_stringify x +:+ "," +:+ items rest
         end) xs
      +:+ "]"
  | JObj kvs =>
      "{" +:+
      (fix fields (l : list (string * json)) : string :=
         match l with
         | [] => EmptyString
         | [(k, v)] => json_quote k +:+ ":" +:+ JSON_stringify v
         | (k, v) :: rest =>
             json_quote k +:+ ":" +:+ JSON_stringify v +:+ "," +:+ fields rest
         end) kvs
      +:+ "}"
  end.

(** JavaScript truthiness of a JSON value. *)
Definition truthy (j : json) : bool :=
  match j with
  | JNull => false
  | JBool b => b
  | JNum text => negb (String.eqb text "0")
  | JStr s => negb (String.eqb s EmptyString)
  | JArr _ | JObj _ => true
  end.

(** A value the code may find [undefined]. *)
Definition truthy_opt (v : option json) : bool :=
  match v with
  | None => false
  | Some j => truthy j
  end.

(** [v.key] on a value that is not [undefined]/[null]: only objects have
    data fields; strings, numbers, booleans and arrays give [undefined]. *)
Definition get_prop (v : json) (key : string) : option json :=
  match v with
  | JObj kvs => assoc key kvs
  | _ => None
  end.

(** An entry of [req.query]: a string, or an array of strings when the
    parameter is repeated. *)
Inductive qval : Type :=
  | QStr (s : string)
  | QArr (xs : list string).

Fixpoint join_comma (xs : list string) : string :=
  match xs with
  | [] => EmptyString
  | [x] => x
  | x :: rest => x +:+ "," +:+ join_comma rest
  end.

(** [String(v)], as a template literal or [encodeURIComponent] applies it. *)
Definition qval_str (v : qval) : string :=
  match v with
  | QStr s => s
  | QArr xs => join_comma xs
  end.

Definition qval_truthy (v : option qval) : bool :=
  match v with
  | None => false
  | Some (QStr s) => negb (String.eqb s EmptyString)
  | Some (QArr _) => true
  end.

(** [v || d] *)
Definition qval_or (v : option qval) (d : string) : qval :=
  match v with
  | Some x => if qval_truthy v then x else QStr d
  | None => QStr d
  end.

(** [const { k = d } = ...]: the default applies to [undefined] only. *)
Definition qval_default (v : option qval) (d : string) : qval :=
  match v with
  | Some x => x
  | None => QStr d
  end.

(** [`${v}`] for an environment variable that may be unset. *)
Definition env_str (v : option string) : string :=
  match v with
  | Some s => s
  | None => "undefined"
  end.

(** [a || b] on environment variables. *)
Definition env_or (a b : option string) : option string :=
  match a with
  | Some s => if String.eqb s EmptyString then b else a
  | None => b
  end.

End JS.

(** ** The serverless request and response objects *)

Module Http.

(** What a handler reads of [req]. *)
Record Req : Type := mkReq {
  method : string;
  query : gmap string JS.qval;
  body : option json          (* [None] is [undefined] *)
}.

(** What a handler has written to [res]. *)
Inductive Payload : Type :=
  | PJson (j : json)           (* [res.json(j)] *)
  | PSend (s : string)         (* [res.send(s)], text or bytes *)
  | PEmpty.                    (* [res.end()] *)

Record Res : Type := mkRes {
  statusCode : Z;
  headers : gmap string string;
  payload : option Payload     (* [None] until the response is sent *)
}.

(** A fresh response: status 200, no header, nothing sent. *)
Definition res0 : Res :=
  {| statusCode := 200; headers := ∅; payload := None |}.

(** The text that reaches the client. *)
Definition body_text (r : Res) : string :=
  match payload r with
  | Some (PJson j) => JS.JSON_stringify j
  | Some (PSend s) => s
  | Some PEmpty | None => EmptyString
  end.

(** The arguments of one [fetch] call. *)
Record FetchReq : Type := mkFetch {
  f_url : string;
  f_method : string;
  f_headers : list (string * string);
  f_body : option string;
  f_redirect : option string
}.

Definition GET (url : string) : FetchReq :=
  {| f_url := url; f_method := "GET"; f_headers := [];
     f_body := None; f_redirect := None |}.

(** An upstream [Response]: its status and its body as received. *)
Record Response : Type := mkResponse {
  r_status : Z;
  r_body : string
}.

(** [response.ok] *)
Definition r_ok (r : Response) : bool :=
  (200 <=? r_status r) && (r_status r <=? 299).

(** The third-party service: [fetch] rejects with an exception when it
    cannot be reached, and resolves with a response otherwise. *)
Definition Upstream : Type := FetchReq → Exn + Response.

(** The state a handler works on: the response under construction and the
    [fetch] calls made so far. *)
Record World : Type := mkWorld {
  w_res : Res;
  w_calls : list FetchReq
}.

Definition world0 : World := {| w_res := res0; w_calls := [] |}.

(** A computation that may throw, over [World]. *)
Definition M (A : Type) : Type := World → (Exn + A) * World.

#[export] Instance M_ret : MRet M := λ A (a : A) w, (inr a, w).

#[export] Instance M_bind : MBind M := λ A B (f : A → M B) (m : M A) w,
  match m w with
  | (inr a, w') => f a w'
  | (inl e, w') => (inl e, w')
  end.

(** [try { m } catch (err) { h err }] *)
Definition try_catch {A : Type} (m : M A) (h : Exn → M A) : M A := λ w,
  match m w with
  | (inl e, w') => h e w'
  | r => r
  end.

Definition lift {A : Type} (r : Exn + A) : M A := λ w, (r, w).

Definition update_res (f : Res → Res) : M unit := λ w,
  (inr (), {| w_res := f (w_res w); w_calls := w_calls w |}).

(** [res.setHeader(k, v)] *)
Definition setHeader (k v : string) : M unit :=
  update_res (λ r, {| statusCode := statusCode r;
                      headers := <[k := v]> (headers r);
                      payload := payload r |}).

(** [res.status(c)] *)
Definition status (c : Z) : M unit :=
  update_res (λ r, {| statusCode := c; headers := headers r;
                      payload := payload r |}).

Definition write (p : Payload) : M unit :=
  update_res (λ r, {| statusCode := statusCode r; headers := headers r;
                      payload := Some p |}).

(** [await fetch(...)]: the call is recorded, then the upstream answers. *)
Definition fetch (up : Upstream) (rq : FetchReq) : M Response := λ w,
  (up rq, {| w_res := w_res w; w_calls := (w_calls w ++ [rq])%list |}).

(** [{ error: msg }] *)
Definition error_obj (msg : string) : json := JObj [("error", JStr msg)].

Section Handlers.

(** [JSON.parse], behind [response.json()]: a value, or a [SyntaxError]. *)
Variable JSON_parse : string → Exn + json.

Variable env : gmap string string.     (* [process.env] *)
Variable up : Upstream.

(** [api/newsapi.js] *)
Definition newsapi_url (q pageSize : option JS.qval) (key : option string)
  : string :=
  "https://newsapi.org/v2/everything?q="
  +:+ JS.encodeURIComponent
        (JS.qval_str (JS.qval_or q "artificial intelligence"))
  +:+ "&sortBy=publishedAt&pageSize="
  +:+ JS.qval_str (JS.qval_default pageSize "10")
  +:+ "&apiKey=" +:+ JS.env_str key.

Definition newsapi (req : Req) : M unit :=
  let q := query req !! "q" in
  let pageSize := query req !! "pageSize" in
  let API_KEY := env !! "NEWSAPI_KEY" in
  try_catch
    (let url := newsapi_url q pageSize API_KEY in
     response ← fetch up (GET url);
     data ← lift (JSON_parse (r_body response));
     setHeader "Access-Control-Allow-Origin" "*";;
     status (r_status response);;
     write (PJson data))
    (λ err, status 500;; write (PJson (error_obj (message err)))).

(** The news-data handler (the second news proxy). *)
Definition newsdata_url (q language : option JS.qval) (key : option string)
  : string :=
  "https://newsdata.io/api/1/news?apikey=" +:+ JS.env_str key
  +:+ "&q="
  +:+ JS.encodeURIComponent
        (JS.qval_str (JS.qval_or q "artificial intelligence"))
  +:+ "&language=" +:+ JS.qval_str (JS.qval_default language "en").

Definition newsdata (req : Req) : M unit :=
  let q := query req !! "q" in
  let language := query req !! "language" in
  let API_KEY := env !! "NEWSDATA_KEY" in
  try_catch
    (let url := newsdata_url q language API_KEY in
     response ← fetch up (GET url);
     data ← lift (JSON_parse (r_body response));
     setHeader "Access-Control-Allow-Origin" "*";;
     status (r_status response);;
     write (PJson data))
    (λ err, status 500;; write (PJson (error_obj (message err)))).

(** The text-to-speech handler. *)
Definition tts_request (key : option string) (text voice : json) : FetchReq :=
  {| f_url := "https://api.openai.com/v1/audio/speech";
     f_method := "POST";
     f_headers := [("Authorization", "Bearer " +:+ JS.env_str key);
                   ("Content-Type", "application/json")];
     f_body := Some (JS.JSON_stringify
                       (JObj [("model", JStr "tts-1");
                              ("input", text);
                              ("voice", voice)]));
     f_redirect := None |}.

(** [req.body || {}] *)
Definition body_or_empty (b : option json) : json :=
  match b with
  | Some j => if JS.truthy j then j else JObj []
  | None => JObj []
  end.

Definition tts (req : Req) : M unit :=
  setHeader "Access-Control-Allow-Origin" "*";;
  setHeader "Access-Control-Allow-Methods" "POST, OPTIONS";;
  setHeader "Access-Control-Allow-Headers" "Content-Type";;
  if String.eqb (method req) "OPTIONS" then
    status 200;; write PEmpty
  else
    let API_KEY := JS.env_or (env !! "OPENAI_KEY") (env !! "OPENAI_API_KEY") in
    let b := body_or_empty (body req) in
    let text := JS.get_prop b "text" in
    let voice := default (JStr "nova") (JS.get_prop b "voice") in
    match text with
    | Some text' =>
        if JS.truthy text' then
          try_catch
            (response ← fetch up (tts_request API_KEY text' voice);
             if negb (r_ok response) then
               let err := r_body response in
               status (r_status response);; write (PJson (error_obj err))
             else
               let buffer := r_body response in
               setHeader "Content-Type" "audio/mpeg";;
               write (PSend buffer))
            (λ err, status 500;; write (PJson (error_obj (message err))))
        else status 400;; write (PJson (error_obj "No text provided"))
    | None => status 400;; write (PJson (error_obj "No text provided"))
    end.

(** [api/sheets.js] *)
Definition SHEET_ID : string := "11a-_IWhljPJHeKV8vdke-JiLmm_KCq-bedSceKB0kZI".

Definition sheets_url (gid : option JS.qval) : string :=
  "https://docs.google.com/spreadsheets/d/" +:+ SHEET_ID
  +:+ "/export?format=csv&gid=" +:+ JS.qval_str (JS.qval_or gid "5770604").

Definition sheets (req : Req) : M unit :=
  let GID := query req !! "gid" in
  try_catch
    (let url := sheets_url GID in
     response ← fetch up {| f_url := url; f_method := "GET";
                            f_headers := []; f_body := None;
                            f_redirect := Some "follow" |};
     let text := r_body response in
     setHeader "Access-Control-Allow-Origin" "*";;
     setHeader "Content-Type" "text/csv";;
     status 200;;
     write (PSend text))
    (λ err,
       setHeader "Access-Control-Allow-Origin" "*";;
       status 500;; write (PJson (error_obj (message err)))).

End Handlers.

(** Running a handler on a fresh response object: how the returned promise
    settles ([inr ()] resolved, [inl e] rejected), the response and the
    [fetch] calls. *)
Definition run (h : M unit) : (Exn + unit) * World := h world0.

Definition outcome (h : M unit) : Exn + unit := (run h).1.
Definition response (h : M unit) : Res := w_res (run h).2.
Definition calls (h : M unit) : list FetchReq := w_calls (run h).2.

(** The handler returns normally, having answered with status [code] and
    payload [p]. *)
Definition replies (h : M unit) (code : Z) (p : Payload) : Prop :=
  outcome h = inr ()
  ∧ statusCode (response h) = code
  ∧ payload (response h) = Some p.

(** The response carries [Access-Control-Allow-Origin: *]. *)
Definition allows_any_origin (h : M unit) : Prop :=
  headers (response h) !! "Access-Control-Allow-Origin" = Some "*".

(** The [text] the text-to-speech handler destructures from [req.body || {}]. *)
Definition tts_text (req : Req) : option json :=
  JS.get_prop (body_or_empty (body req)) "text".

End Http.

(** ** Background job processing ([docs/INTERVIEW_GUIDE.md]) *)

Module Jobs.

Inductive Status : Type := queued | running | completed | failed.

#[export] Instance Status_eq_dec : EqDecision Status.
Proof. solve_decision. Defined.

(** The text of a status, as it appears in the dictionaries and in JSON. *)
Definition status_str (s : Status) : string :=
  match s with
  | queued => "queued"
  | running => "running"
  | completed => "completed"
  | failed => "failed"
  end.

(** One value of [jobs]: the dictionary with the keys ['status'],
    ['percent'] and ['message']. *)
Record Job : Type := mkJob {
  status : Status;
  percent : Z;
  message : string
}.

(** An entry of the global [steps]. *)
Record Step : Type := mkStep {
  step_percent : Z;
  step_name : string
}.

(** One atomic action of a worker thread: a single item assignment on the
    job's dictionary, or the work of a step, which may raise. *)
Inductive Instr : Type :=
  | SetPercent (p : Z)           (* jobs[job_id]['percent'] = p *)
  | SetMessage (m : string)      (* jobs[job_id]['message'] = m *)
  | Work                         (* ... do work ... *)
  | SetStatus (s : Status).      (* jobs[job_id]['status'] = s *)

(** A worker thread: the job it was started for and what it has left to do.
    A thread that has finished, or died on an exception, has nothing left. *)
Record Thread : Type := mkThread {
  t_job : string;
  t_code : list Instr
}.

(** The process: the global [jobs] and the threads started so far. *)
Record State : Type := mkState {
  jobs : gmap string Job;
  threads : list Thread
}.

Definition init : State := {| jobs := ∅; threads := [] |}.

(** The body of the generation-start response. *)
Record Started : Type := mkStarted {
  job_id : string;
  started_status : Status
}.

(** What the scheduler or a client does next.  [Generate id] is a request to
    the generation-start endpoint for which [str(uuid.uuid4())[:8]] gives
    [id]; [Tick k raises] lets thread [k] run its next action, and [raises]
    tells whether the work of a step raises. *)
Inductive Event : Type :=
  | Generate (id : string)
  | Tick (k : nat) (raises : bool).

Fixpoint ascending (lo : Z) (l : list Z) : Prop :=
  match l with
  | [] => True
  | x :: rest => lo ≤ x ∧ ascending x rest
  end.

(** The status order [queued → running → {completed | failed}]. *)
Inductive edge : Status → Status → Prop :=
  | edge_start : edge queued running
  | edge_done : edge running completed
  | edge_fail : edge running failed.

(** Zero or more transitions, each of them forward. *)
Definition forward : Status → Status → Prop := rtc edge.

(** What an action leaves of the job's dictionary. *)
Definition update (i : Instr) (j : Job) : Job :=
  match i with
  | SetPercent p =>
      {| status := status j; percent := p; message := message j |}
  | SetMessage m =>
      {| status := status j; percent := percent j; message := m |}
  | Work => j
  | SetStatus st =>
      {| status := st; percent := percent j; message := message j |}
  end.

Section Worker.

(** The global [steps], which the guide does not show. *)
Variable steps : list Step.

(** [do_generation(job_id)], unrolled over [steps]. *)
Definition do_generation : list Instr :=
  flat_map (λ step, [SetPercent (step_percent step);
                     SetMessage (step_name step);
                     Work]) steps
  ++ [SetStatus completed].

(** [generate()]: the new record, the started thread, the response. *)
Definition generate (id : string) (s : State) : State * Started :=
  ({| jobs := <[id := {| status := running; percent := 0;
                         message := "Starting..." |}]> (jobs s);
      threads := (threads s ++ [{| t_job := id; t_code := do_generation |}])%list |},
   {| job_id := id; started_status := queued |}).

(** An item assignment [jobs[id][key] = v]; [None] is the [KeyError] of
    [jobs[id]]. *)
Definition assign (id : string) (f : Job → Job) (js : gmap string Job)
  : option (gmap string Job) :=
  match js !! id with
  | Some j => Some (<[id := f j]> js)
  | None => None
  end.

(** One action of a thread on [jobs]; [None] when it raises. *)
Definition exec (id : string) (i : Instr) (raises : bool)
    (js : gmap string Job) : option (gmap string Job) :=
  match i with
  | Work => if raises then None else Some js
  | _ => assign id (update i) js
  end.

Definition tick (k : nat) (raises : bool) (s : State) : State :=
  match threads s !! k with
  | Some {| t_job := id; t_code := i :: rest |} =>
      match exec id i raises (jobs s) with
      | Some js =>
          {| jobs := js;
             threads := <[k := {| t_job := id; t_code := rest |}]> (threads s) |}
      | None =>
          (* an uncaught exception ends the thread; [jobs] is as it was *)
          {| jobs := jobs s;
             threads := <[k := {| t_job := id; t_code := [] |}]> (threads s) |}
      end
  | _ => s
  end.

Definition step (ev : Event) (s : State) : State :=
  match ev with
  | Generate id => (generate id s).1
  | Tick k raises => tick k raises s
  end.

(** The state after a sequence of events, oldest first. *)
Definition run (evs : list Event) (s : State) : State :=
  foldl (λ s ev, step ev s) s evs.

End Worker.

(** The identifiers drawn by the [Generate] events. *)
Definition generated (evs : list Event) : list string :=
  omap (λ ev, match ev with Generate id => Some id | Tick _ _ => None end) evs.

(** Every draw of [uuid4] gives an identifier not given before: the
    "opaque unique token" of the data model. *)
Definition fresh_ids (evs : list Event) : Prop := NoDup (generated evs).

(** Modelled from the spec: the global [steps] is not part of the sources;
    "[percent]: integer 0–100, monotonically non-decreasing while running"
    asks this of its entries. *)
Definition steps_ok (steps : list Step) : Prop :=
  ascending 0 (step_percent <$> steps)
  ∧ Forall (λ p, p ≤ 100) (step_percent <$> steps).

(** The same, said of the registry at each draw: the identifier is not a key
    of [jobs] yet. *)
Definition event_fresh (ev : Event) (s : State) : Prop :=
  match ev with
  | Generate id => jobs s !! id = None
  | Tick _ _ => True
  end.

Fixpoint fresh_run (steps : list Step) (evs : list Event) (s : State) : Prop :=
  match evs with
  | [] => True
  | ev :: rest => event_fresh ev s ∧ fresh_run steps rest (step steps ev s)
  end.

(** What a worker has left to do: assignments and work, closed by the one
    [SetStatus completed]; or nothing. *)
Fixpoint worker_code (code : list Instr) : Prop :=
  match code with
  | [] => True
  | SetStatus st :: rest => st = completed ∧ rest = []
  | _ :: rest => worker_code rest
  end.

(** The values of [percent] a worker has still to write, in order. *)
Definition pending (code : list Instr) : list Z :=
  omap (λ i, match i with SetPercent p => Some p | _ => None end) code.

(** The invariant of the registry and its workers. *)
Record inv (s : State) : Prop := mkInv {
  inv_known : ∀ (k : nat) (t : Thread), threads s !! k = Some t → is_Some (jobs s !! t_job t);
  inv_unique : ∀ (k1 k2 : nat) (t1 t2 : Thread),
    threads s !! k1 = Some t1 → threads s !! k2 = Some t2 →
    t_job t1 = t_job t2 → k1 = k2;
  inv_shape : ∀ (k : nat) (t : Thread), threads s !! k = Some t → worker_code (t_code t);
  inv_live : ∀ (k : nat) (t : Thread) (j : Job),
    threads s !! k = Some t → t_code t ≠ [] →
    jobs s !! t_job t = Some j → status j = running;
  inv_status : ∀ (id : string) (j : Job),
    jobs s !! id = Some j → status j = running ∨ status j = completed
}.

(** The invariant of [percent]: within bounds, and never above what the
    job's worker has still to write. *)
Record inv_percent (s : State) : Prop := mkInvPercent {
  pct_bounds : ∀ (id : string) (j : Job), jobs s !! id = Some j → 0 ≤ percent j ≤ 100;
  pct_pending : ∀ (k : nat) (t : Thread) (j : Job),
    threads s !! k = Some t → jobs s !! t_job t = Some j →
    ascending (percent j) (pending (t_code t))
    ∧ Forall (λ p, p ≤ 100) (pending (t_code t))
}.

(** Modelled from the spec: the status endpoint [get_status], whose code is
    not part of the sources.  "Returns the current snapshot of the record; if
    the id is unknown, signals a not-found condition (mapped to a
    404-equivalent at the boundary). No side effects." *)
Inductive Lookup : Type :=
  | Found (j : Job)
  | NotFound.

Definition get_status (id : string) (s : State) : Lookup * State :=
  match jobs s !! id with
  | Some j => (Found j, s)
  | None => (NotFound, s)
  end.

(** Modelled from the spec: the HTTP status of a status read, "mapped to a
    404-equivalent at the boundary". *)
Definition status_code (r : Lookup) : Z :=
  match r with
  | Found _ => 200
  | NotFound => 404
  end.

End Jobs.

(** ** The voice pipeline ([voice_chat], [docs/INTERVIEW_GUIDE.md]) *)

Module Voice.

(** A call to an external service. *)
Inductive Call : Type :=
  | Transcribe (audio : string)            (* whisper-1 on the audio file *)
  | Chat (system user : string)            (* gpt-4o-mini *)
  | Speech (input : string).               (* tts-1, voice nova *)

Inductive Stage : Type := transcribe | generate | synthesize.

Definition stage_of (c : Call) : Stage :=
  match c with
  | Transcribe _ => transcribe
  | Chat _ _ => generate
  | Speech _ => synthesize
  end.

(** The JSON object the endpoint returns. *)
Record Reply : Type := mkReply {
  question : string;
  answer : string;
  audio : string
}.

(** A computation that may raise, with the log of the external calls. *)
Definition P (A : Type) : Type := list Call → (Exn + A) * list Call.

#[export] Instance P_ret : MRet P := λ A (a : A) log, (inr a, log).

#[export] Instance P_bind : MBind P := λ A B (f : A → P B) (m : P A) log,
  match m log with
  | (inr a, log') => f a log'
  | (inl e, log') => (inl e, log')
  end.

Definition lift {A : Type} (r : Exn + A) : P A := λ log, (r, log).

(** A call is logged, then the service answers or raises. *)
Definition call {A : Type} (c : Call) (r : Exn + A) : P A := λ log,
  (r, (log ++ [c])%list).

(** [data[key]] on the parsed request body. *)
Definition subscript (data : json) (key : string) : Exn + json :=
  match data with
  | JObj kvs =>
      match assoc key kvs with
      | Some v => inr v
      | None => inl (mkExn ("KeyError: " +:+ key))
      end
  | _ => inl (mkExn "TypeError")
  end.

Section Pipeline.

(** The external services and the library functions. *)
Variable OpenAI : Exn + unit.                        (* openai.OpenAI() *)
Variable b64decode : json → Exn + string.            (* base64.b64decode *)
Variable b64encode : string → string.                (* b64encode(..).decode() *)
Variable format : json → string.                     (* {..} in an f-string *)
Variable transcriptions_create : string → Exn + string.
Variable completions_create : string → string → Exn + string.
Variable speech_create : string → Exn + string.

Definition voice_chat (data : json) : P Reply :=
  _ ← lift OpenAI;
  (* Step 1: transcribe the user's audio *)
  a ← lift (subscript data "audio");
  audio_bytes ← lift (b64decode a);
  question ← call (Transcribe audio_bytes) (transcriptions_create audio_bytes);
  (* Step 2: generate the answer *)
  title ← lift (subscript data "title");
  let system := "Answer questions about: " +:+ format title in
  answer ← call (Chat system question) (completions_create system question);
  (* Step 3: convert the answer to speech *)
  tts ← call (Speech answer) (speech_create answer);
  mret {| question := question; answer := answer; audio := b64encode tts |}.

End Pipeline.

End Voice.

(** ** The audio briefing ([audio_summary], [docs/INTERVIEW_GUIDE.md]) *)

Module Audio.
Import Voice.

Definition newline : ascii := Eval cbv in ascii_of_nat 10.

Definition SUMMARY_PROMPT : string := "Create a podcast-style summary...".

Section Briefing.

Variable OpenAI : Exn + unit.                        (* openai.OpenAI() *)
Variable format : json → string.                     (* {..} in an f-string *)
Variable completions_create : string → string → Exn + string.
Variable speech_create : string → Exn + string.

(** The user message [f'Article: {data["title"]}\n{data["summary"]}']. *)
Definition article (title summary : json) : string :=
  "Article: " +:+ format title +:+ String newline (format summary).

(** The bytes of the [audio/mpeg] response. *)
Definition audio_summary (data : json) : P string :=
  _ ← lift OpenAI;
  (* Step 1: generate a script *)
  title ← lift (subscript data "title");
  summary ← lift (subscript data "summary");
  script ← call (Chat SUMMARY_PROMPT (article title summary))
              (completions_create SUMMARY_PROMPT (article title summary));
  (* Step 2: convert the script to speech *)
  tts ← call (Speech script) (speech_create script);
  mret tts.

End Briefing.

End Audio.

(** ** The front end ([docs/INTERVIEW_GUIDE.md], architecture part) *)

Module Frontend.

(** *** Touch gesture detection *)

Inductive Direction : Type := Right | Left | Down | Up.

(** The [touchend] listener: the direction handed to [handleSwipe], if any.
    Coordinates are CSS pixels, taken as integers. *)
Definition touchend (startX startY endX endY : Z) : option Direction :=
  let deltaX := endX - startX in
  let deltaY := endY - startY in
  if Z.abs deltaX >? Z.abs deltaY then
    if deltaX >? 50 then Some Right
    else if deltaX <? -50 then Some Left
    else None
  else
    if deltaY >? 50 then Some Down
    else if deltaY <? -50 then Some Up
    else None.

Definition opposite (d : Direction) : Direction :=
  match d with
  | Right => Left
  | Left => Right
  | Down => Up
  | Up => Down
  end.

(** *** API base URL detection *)

Definition PRODUCTION_API : string :=
  "https://web-production-08a17.up.railway.app".

Definition API_BASE (hostname : string) : string :=
  if String.eqb hostname "localhost" then "http://localhost:5050"
  else PRODUCTION_API.

(** *** Polling for job status *)

(** What [pollStatus] does to the page; an argument is [None] when the
    field is [undefined]. *)
Inductive Ui : Type :=
  | updateProgressBar (v : option json)
  | updateStatusText (v : option json)
  | showSuccess (v : option json)
  | showError (v : option json).

(** [data.key]: a [TypeError] on [null], [undefined] for a missing field. *)
Definition member (data : json) (key : string) : Exn + option json :=
  match data with
  | JNull => inl (mkExn "TypeError: Cannot read properties of null")
  | _ => inr (JS.get_prop data key)
  end.

(** [v === 'running'] and the like. *)
Definition is_str (v : option json) (s : string) : bool :=
  match v with
  | Some (JStr s') => String.eqb s' s
  | _ => false
  end.

(** One call of [pollStatus], given how [fetch] and [response.json()]
    settle: the updates of the page, and whether [setTimeout] arms the next
    call ([inr true]), polling ends ([inr false]) or the call throws. *)
Definition pollStatus_once (answer : Exn + json) : list Ui * (Exn + bool) :=
  match answer with
  | inl e => ([], inl e)
  | inr data =>
      match member data "percent" with
      | inl e => ([], inl e)
      | inr percent =>
          let message := JS.get_prop data "message" in
          let status := JS.get_prop data "status" in
          let ui := [updateProgressBar percent; updateStatusText message] in
          if is_str status "running" then (ui, inr true)
          else if is_str status "completed" then
            (ui ++ [showSuccess (JS.get_prop data "result")], inr false)%list
          else if is_str status "failed" then
            (ui ++ [showError message], inr false)%list
          else (ui, inr false)
      end
  end.

(** The chain of calls over the answers of the server, oldest first: the
    updates of the page and the number of requests made.  When the answers
    run out the next call is still pending. *)
Fixpoint pollStatus (answers : list (Exn + json)) : list Ui * nat :=
  match answers with
  | [] => ([], 0%nat)
  | answer :: rest =>
      match pollStatus_once answer with
      | (ui, inr true) =>
          let (ui', n) := pollStatus rest in ((ui ++ ui')%list, S n)
      | (ui, _) => (ui, 1%nat)
      end
  end.

(** The server says the job is running. *)
Definition says_running (answer : Exn + json) : Prop :=
  ∃ data, answer = inr data ∧ data ≠ JNull
          ∧ JS.get_prop data "status" = Some (JStr "running").

(** *** Base64 audio transfer *)

(** [s.split(',')] *)
Fixpoint split_comma (s : string) : list string :=
  match s with
  | EmptyString => [EmptyString]
  | String c rest =>
      if Ascii.eqb c "," then EmptyString :: split_comma rest
      else match split_comma rest with
           | piece :: pieces => String c piece :: pieces
           | [] => [String c EmptyString]
           end
  end.

(** [reader.result.split(',')[1]]; [None] is [undefined]. *)
Definition base64Audio (result : string) : option string :=
  split_comma result !! 1%nat.

(** [JSON.stringify({ audio: base64Audio })]: a field that is [undefined]
    is left out. *)
Definition voice_chat_body (result : string) : string :=
  JS.JSON_stringify
    match base64Audio result with
    | Some b => JObj [("audio", JStr b)]
    | None => JObj []
    end.

Fixpoint has_comma (s : string) : bool :=
  match s with
  | EmptyString => false
  | String c rest => Ascii.eqb c "," || has_comma rest
  end.

End Frontend.

(** ** Auxiliary notions for the properties *)

Module Aux.

(** The inverse of [JS.encodeURIComponent] on its outputs, byte by byte. *)
Definition unhex (c : ascii) : N :=
  let n := N_of_ascii c in
  if (n <? 58)%N then (n - 48)%N else (n - 55)%N.

Fixpoint percent_decode (s : string) : string :=
  match s with
  | String "%" (String h (String l rest)) =>
      String (ascii_of_N (16 * unhex h + unhex l)) (percent_decode rest)
  | String c rest => String c (percent_decode rest)
  | EmptyString => EmptyString
  end.

(** A character that cannot end or separate a query parameter. *)
Definition uri_safe (c : ascii) : bool :=
  JS.uri_unreserved c || Ascii.eqb c "%".

Fixpoint all_chars (P : ascii → bool) (s : string) : bool :=
  match s with
  | EmptyString => true
  | String c rest => P c && all_chars P rest
  end.

(** The last entry of the step table, or the initial values. *)
Definition final_percent (steps : list Jobs.Step) (p0 : Z) : Z :=
  from_option Jobs.step_percent p0 (last steps).

Definition final_message (steps : list Jobs.Step) (m0 : string) : string :=
  from_option Jobs.step_name m0 (last steps).

End Aux.

(** * Properties *)

(** ** Proxy handlers *)

Module HttpFacts.
Import Http.

Ltac run_handler :=
  unfold replies, allows_any_origin, outcome, response, calls, run,
    newsapi, newsdata, sheets, tts, try_catch, fetch, lift, world0,
    setHeader, status, write, update_res, mbind, M_bind, mret, M_ret;
  cbn -[String.append JS.encodeURIComponent JS.JSON_stringify
        newsapi_url newsdata_url sheets_url tts_request].

(** The branches of the text-to-speech handler. *)
Ltac tts_cases req :=
  unfold tts_text in *;
  destruct (String.eqb_spec (method req) "OPTIONS");
  destruct (JS.get_prop (body_or_empty (body req)) "text") as [text'|];
  try destruct (JS.truthy text') eqn:?;
  cbn [JS.truthy_opt] in *; try congruence.

(** "Missing text" covers a missing body, a body without the field and an
    empty field. *)
Example text_missing_cases :
  JS.truthy_opt (tts_text (mkReq "POST" ∅ None)) = false
  ∧ JS.truthy_opt (tts_text (mkReq "POST" ∅ (Some JNull))) = false
  ∧ JS.truthy_opt (tts_text (mkReq "POST" ∅ (Some (JObj [])))) = false
  ∧ JS.truthy_opt
      (tts_text (mkReq "POST" ∅ (Some (JObj [("text", JStr EmptyString)]))))
    = false
  ∧ JS.truthy_opt
      (tts_text (mkReq "POST" ∅ (Some (JObj [("voice", JStr "alloy")]))))
    = false.
Proof. repeat split; reflexivity. Qed.

Example encode_default_query :
  JS.encodeURIComponent "artificial intelligence" = "artificial%20intelligence".
Proof. reflexivity. Qed.

(** C8: when the upstream cannot be reached ([fetch] throws [e]), each proxy
    handler returns normally with status 500 and the JSON payload
    [{ error: e.message }], the object whose one field [error] is the
    exception's message; for the text-to-speech handler this is for the
    requests that reach [fetch] (not OPTIONS, with a text). *)
Theorem upstream_unreachable_gives_500
    (JSON_parse : string → Exn + json) (env : gmap string string)
    (up : Upstream) (e : Exn) (req : Req) :
  (∀ rq, up rq = inl e) →
  let err := PJson (JObj [("error", JStr (message e))]) in
  replies (newsapi JSON_parse env up req) 500 err
  ∧ replies (newsdata JSON_parse env up req) 500 err
  ∧ replies (sheets up req) 500 err
  ∧ (method req ≠ "OPTIONS" → JS.truthy_opt (tts_text req) = true →
     replies (tts env up req) 500 err).
Proof.
  intros Hup err. split; [|split; [|split]].
  1-3: repeat split; run_handler; rewrite Hup; reflexivity.
  intros Hm Ht. run_handler. tts_cases req.
  cbn. rewrite Hup. repeat split; reflexivity.
Qed.

Lemma upstream_unreachable_gives_500_witness :
  let up : Upstream := λ _, inl (mkExn "fetch failed") in
  let req := mkReq "POST" ∅ (Some (JObj [("text", JStr "hello")])) in
  let err := PJson (JObj [("error", JStr "fetch failed")]) in
  (∀ rq, up rq = inl (mkExn "fetch failed"))
  ∧ replies (newsapi (λ _, inr JNull) ∅ up req) 500 err
  ∧ replies (newsdata (λ _, inr JNull) ∅ up req) 500 err
  ∧ replies (sheets up req) 500 err
  ∧ replies (tts ∅ up req) 500 err
  ∧ body_text (response (tts ∅ up req))
    = "{" +:+ JS.json_quote "error" +:+ ":" +:+ JS.json_quote "fetch failed"
      +:+ "}".
Proof.
  intros up req err.
  destruct (upstream_unreachable_gives_500 (λ _, inr JNull) ∅ up
              (mkExn "fetch failed") req (λ _, eq_refl))
    as (Hnews & Hdata & Hsheets & Htts).
  split; [reflexivity|]. split; [exact Hnews|]. split; [exact Hdata|].
  split; [exact Hsheets|].
  split; [apply Htts; [discriminate | reflexivity] | reflexivity].
Defined.

(** C3, as stated, fails on the sheet-export handler: an upstream 404 reaches
    the client as 200. *)
Lemma sheets_does_not_relay_status :
  let rsp := {| r_status := 404; r_body := "Not Found" |} in
  let h := sheets (λ _, inr rsp) (mkReq "GET" ∅ None) in
  statusCode (response h) = 200
  ∧ statusCode (response h) ≠ r_status rsp.
Proof. split; [reflexivity | discriminate]. Qed.

(** C3 (amended): when the upstream answers [rsp], the two news handlers
    relay its status and its body as parsed JSON whenever the body parses;
    the sheet-export handler relays the body as [text/csv] with status 200
    whatever the upstream status; the text-to-speech handler, for a request
    that reaches the upstream, relays the audio as [audio/mpeg] with status
    200 when the upstream status is 200..299 and otherwise the upstream
    status with the body wrapped as [{ error: body }].  All of these
    responses carry [Access-Control-Allow-Origin: *]. *)
Theorem proxies_relay_upstream
    (JSON_parse : string → Exn + json) (env : gmap string string)
    (up : Upstream) (rsp : Response) (req : Req) :
  (∀ rq, up rq = inr rsp) →
  (∀ data, JSON_parse (r_body rsp) = inr data →
     replies (newsapi JSON_parse env up req) (r_status rsp) (PJson data)
     ∧ allows_any_origin (newsapi JSON_parse env up req)
     ∧ replies (newsdata JSON_parse env up req) (r_status rsp) (PJson data)
     ∧ allows_any_origin (newsdata JSON_parse env up req))
  ∧ (replies (sheets up req) 200 (PSend (r_body rsp))
     ∧ allows_any_origin (sheets up req)
     ∧ headers (response (sheets up req)) !! "Content-Type" = Some "text/csv")
  ∧ (method req ≠ "OPTIONS" → JS.truthy_opt (tts_text req) = true →
     allows_any_origin (tts env up req)
     ∧ (200 ≤ r_status rsp ≤ 299 →
        replies (tts env up req) 200 (PSend (r_body rsp))
        ∧ headers (response (tts env up req)) !! "Content-Type"
          = Some "audio/mpeg")
     ∧ (¬ (200 ≤ r_status rsp ≤ 299) →
        replies (tts env up req) (r_status rsp)
          (PJson (JObj [("error", JStr (r_body rsp))])))).
Proof.
  intros Hup. split; [|split].
  - intros data Hdata.
    repeat split; run_handler; rewrite Hup; cbn; rewrite Hdata; reflexivity.
  - repeat split; run_handler; rewrite Hup; reflexivity.
  - intros Hm Ht. run_handler. tts_cases req.
    cbn. rewrite Hup. unfold r_ok.
    destruct (Z.leb_spec 200 (r_status rsp)), (Z.leb_spec (r_status rsp) 299);
      cbn; (split; [reflexivity|]); split; intros Hrange;
      try lia; repeat split; reflexivity.
Qed.

Lemma proxies_relay_upstream_witness :
  let rsp := {| r_status := 429; r_body := "{}" |} in
  let up : Upstream := λ _, inr rsp in
  let parse : string → Exn + json := λ s,
    if String.eqb s "{}" then inr (JObj [])
    else inl (mkExn "Unexpected token") in
  let req := mkReq "POST" ∅ (Some (JObj [("text", JStr "hello")])) in
  (∀ rq, up rq = inr rsp)
  ∧ replies (newsapi parse ∅ up req) 429 (PJson (JObj []))
  ∧ replies (newsdata parse ∅ up req) 429 (PJson (JObj []))
  ∧ replies (sheets up req) 200 (PSend "{}")
  ∧ headers (response (sheets up req)) !! "Content-Type" = Some "text/csv"
  ∧ replies (tts ∅ up req) 429 (PJson (JObj [("error", JStr "{}")])).
Proof.
  intros rsp up parse req.
  destruct (proxies_relay_upstream parse ∅ up rsp req (λ _, eq_refl))
    as (Hnews & (Hsheets & _ & Hcsv) & Htts).
  destruct (Hnews (JObj []) eq_refl) as (Hapi & _ & Hdata & _).
  destruct (Htts ltac:(discriminate) eq_refl) as (_ & _ & Herr).
  split; [reflexivity|].
  split; [exact Hapi|]. split; [exact Hdata|].
  split; [exact Hsheets|]. split; [exact Hcsv|].
  apply Herr. cbn. lia.
Defined.

(** The same with an upstream that answers 200: the audio goes out as
    [audio/mpeg]. *)
Example tts_relays_audio :
  let up : Upstream := λ _, inr {| r_status := 200; r_body := "ID3" |} in
  let req := mkReq "POST" ∅ (Some (JObj [("text", JStr "hello")])) in
  replies (tts ∅ up req) 200 (PSend "ID3")
  ∧ headers (response (tts ∅ up req)) !! "Content-Type" = Some "audio/mpeg".
Proof. repeat split; vm_compute; reflexivity. Qed.

(** A news handler that cannot parse the upstream body answers 500 with the
    parser's message, and without the cross-origin header. *)
Example news_unparseable_body :
  let up : Upstream := λ _, inr {| r_status := 502; r_body := "<html>" |} in
  let parse : string → Exn + json := λ _, inl (mkExn "Unexpected token <") in
  let h := newsapi parse ∅ up (mkReq "GET" ∅ None) in
  replies h 500 (PJson (error_obj "Unexpected token <"))
  ∧ headers (response h) !! "Access-Control-Allow-Origin" = None.
Proof. repeat split; vm_compute; reflexivity. Qed.

(** C7, as stated, fails on a preflight: an OPTIONS request has no text and
    is answered 200, not 400. *)
Lemma options_without_text_is_not_400 :
  let req := mkReq "OPTIONS" ∅ None in
  let h := tts ∅ (λ _, inl (mkExn "unreachable")) req in
  JS.truthy_opt (tts_text req) = false
  ∧ statusCode (response h) = 200
  ∧ statusCode (response h) ≠ 400.
Proof. split; [reflexivity|]. split; [reflexivity | discriminate]. Qed.

(** C7 (amended): a request to the text-to-speech handler whose method is not
    OPTIONS and whose body has no text (no body, no field, or a falsy field)
    is answered 400 with [{ error: 'No text provided' }], the handler
    returns normally and the upstream is not contacted. *)
Theorem missing_text_is_client_error
    (env : gmap string string) (up : Upstream) (req : Req) :
  method req ≠ "OPTIONS" →
  JS.truthy_opt (tts_text req) = false →
  replies (tts env up req) 400 (PJson (error_obj "No text provided"))
  ∧ calls (tts env up req) = [].
Proof.
  intros Hm Ht. run_handler. tts_cases req; repeat split; reflexivity.
Qed.

Lemma missing_text_is_client_error_witness :
  let req := mkReq "POST" ∅ (Some (JObj [("voice", JStr "alloy")])) in
  let h := tts ∅ (λ _, inl (mkExn "unreachable")) req in
  method req ≠ "OPTIONS"
  ∧ JS.truthy_opt (tts_text req) = false
  ∧ replies h 400 (PJson (error_obj "No text provided"))
  ∧ calls h = [].
Proof.
  intros req h.
  assert (Hm : method req ≠ "OPTIONS") by discriminate.
  split; [exact Hm|]. split; [reflexivity|].
  exact (missing_text_is_client_error ∅ _ req Hm eq_refl).
Defined.

(** A preflight is answered without contacting the upstream either. *)
Lemma preflight_is_answered_locally
    (env : gmap string string) (up : Upstream) (req : Req) :
  method req = "OPTIONS" →
  replies (tts env up req) 200 PEmpty ∧ calls (tts env up req) = [].
Proof.
  intros Hm. run_handler. rewrite Hm. cbn. repeat split; reflexivity.
Qed.

(** C9: the text-to-speech handler relays the upstream's error text as it
    is.  When that text quotes the credential the handler sent, the key
    reaches the client. *)
Theorem tts_relays_upstream_error_with_key :
  let key := "sk-live-123" in
  let env : gmap string string := {[ "OPENAI_KEY" := key ]} in
  let up : Upstream := λ rq,
    inr {| r_status := 401;
           r_body := "Incorrect API key provided: "
                     +:+ default EmptyString
                           (assoc "Authorization" (f_headers rq)) |} in
  let req := mkReq "POST" ∅ (Some (JObj [("text", JStr "hi")])) in
  let h := tts env up req in
  statusCode (response h) = 401
  ∧ payload (response h)
    = Some (PJson (error_obj "Incorrect API key provided: Bearer sk-live-123"))
  ∧ contains key (body_text (response h)) = true.
Proof. repeat split; vm_compute; reflexivity. Qed.

(** Both news handlers return normally and call the upstream exactly once,
    with the URL built from the request. *)
Lemma news_handlers_fetch_once
    (JSON_parse : string → Exn + json) (env : gmap string string)
    (up : Upstream) (req : Req) :
  (outcome (newsapi JSON_parse env up req) = inr ()
   ∧ calls (newsapi JSON_parse env up req)
     = [GET (newsapi_url (query req !! "q") (query req !! "pageSize")
               (env !! "NEWSAPI_KEY"))])
  ∧ (outcome (newsdata JSON_parse env up req) = inr ()
     ∧ calls (newsdata JSON_parse env up req)
       = [GET (newsdata_url (query req !! "q") (query req !! "language")
                 (env !! "NEWSDATA_KEY"))]).
Proof.
  split; run_handler;
    (destruct (up _) as [e | rsp]; [| destruct (JSON_parse (r_body rsp))]);
    split; reflexivity.
Qed.

(** C10: when [q] is absent or empty, both news handlers query the upstream
    for the default 'artificial intelligence' and return normally; an absent
    [pageSize] is sent as 10 and an absent [language] as en. *)
Theorem default_query_when_q_missing
    (JSON_parse : string → Exn + json) (env : gmap string string)
    (up : Upstream) (req : Req) :
  query req !! "q" = None ∨ query req !! "q" = Some (JS.QStr EmptyString) →
  (outcome (newsapi JSON_parse env up req) = inr ()
   ∧ calls (newsapi JSON_parse env up req)
     = [GET ("https://newsapi.org/v2/everything?q=artificial%20intelligence"
             +:+ "&sortBy=publishedAt&pageSize="
             +:+ match query req !! "pageSize" with
                 | None => "10"
                 | Some v => JS.qval_str v
                 end
             +:+ "&apiKey=" +:+ JS.env_str (env !! "NEWSAPI_KEY"))])
  ∧ (outcome (newsdata JSON_parse env up req) = inr ()
     ∧ calls (newsdata JSON_parse env up req)
       = [GET ("https://newsdata.io/api/1/news?apikey="
               +:+ JS.env_str (env !! "NEWSDATA_KEY")
               +:+ "&q=artificial%20intelligence&language="
               +:+ match query req !! "language" with
                   | None => "en"
                   | Some v => JS.qval_str v
                   end)]).
Proof.
  intros Hq.
  assert (Hdef : JS.qval_or (query req !! "q") "artificial intelligence"
                 = JS.QStr "artificial intelligence")
    by (destruct Hq as [-> | ->]; reflexivity).
  destruct (news_handlers_fetch_once JSON_parse env up req)
    as ((Hout1 & ->) & (Hout2 & ->)).
  unfold newsapi_url, newsdata_url. rewrite Hdef.
  split; (split; [assumption|]).
  - destruct (query req !! "pageSize"); reflexivity.
  - destruct (query req !! "language"); reflexivity.
Qed.

Lemma default_query_when_q_missing_witness :
  let req := mkReq "GET" {[ "q" := JS.QStr EmptyString ]} None in
  let env : gmap string string :=
    {[ "NEWSAPI_KEY" := "k1"; "NEWSDATA_KEY" := "k2" ]} in
  let up : Upstream := λ _, inr {| r_status := 200; r_body := "{}" |} in
  let parse : string → Exn + json := λ _, inr (JObj []) in
  (query req !! "q" = None ∨ query req !! "q" = Some (JS.QStr EmptyString))
  ∧ calls (newsapi parse env up req)
    = [GET ("https://newsapi.org/v2/everything?q=artificial%20intelligence"
            +:+ "&sortBy=publishedAt&pageSize=10&apiKey=k1")]
  ∧ calls (newsdata parse env up req)
    = [GET ("https://newsdata.io/api/1/news?apikey=k2"
            +:+ "&q=artificial%20intelligence&language=en")].
Proof.
  intros req env up parse.
  assert (Hq : query req !! "q" = None
               ∨ query req !! "q" = Some (JS.QStr EmptyString))
    by (right; reflexivity).
  destruct (default_query_when_q_missing parse env up req Hq)
    as ((_ & Hnews) & (_ & Hdata)).
  split; [exact Hq|]. split; [exact Hnews | exact Hdata].
Defined.

End HttpFacts.

(** ** Job registry and generation worker *)

Module JobsFacts.
Import Jobs.

Section WithSteps.

Variable steps : list Step.

(** *** The worker's code *)

Lemma worker_code_do_generation : worker_code (do_generation steps).
Proof.
  unfold do_generation. induction steps as [|st rest IH]; cbn; auto.
Qed.

Lemma pending_do_generation :
  pending (do_generation steps) = step_percent <$> steps.
Proof.
  unfold do_generation, pending.
  induction steps as [|st rest IH]; cbn; [reflexivity|].
  f_equal. exact IH.
Qed.

Lemma worker_code_tail (i : Instr) (rest : list Instr) :
  worker_code (i :: rest) → worker_code rest.
Proof. destruct i; cbn; auto. intros [_ ->]. exact I. Qed.

(** The status is written once, last, and as [completed]. *)
Lemma worker_code_status (i : Instr) (rest : list Instr) (j : Job) :
  worker_code (i :: rest) →
  status (update i j) = status j
  ∨ (status (update i j) = completed ∧ rest = []).
Proof. destruct i; cbn; auto. Qed.

(** *** One action on the registry *)

Lemma exec_lookup (id id' : string) (i : Instr) (raises : bool)
    (js js' : gmap string Job) :
  exec id i raises js = Some js' →
  js' !! id' = if decide (id' = id) then update i <$> js !! id else js !! id'.
Proof.
  assert (Hassign : assign id (update i) js = Some js' →
    js' !! id' = if decide (id' = id) then update i <$> js !! id
                 else js !! id').
  { unfold assign. destruct (js !! id) as [j|] eqn:Hj; [|discriminate].
    intros [= <-]. case_decide as Hid.
    - subst id'. rewrite lookup_insert_eq. reflexivity.
    - rewrite lookup_insert_ne by congruence. reflexivity. }
  destruct i; cbn; try exact Hassign.
  destruct raises; [discriminate|]. intros [= <-].
  case_decide as Hid; [subst id'|]; [|reflexivity].
  destruct (js !! id); reflexivity.
Qed.

(** What [tick] does, when it does anything. *)
Lemma tick_cases (k : nat) (raises : bool) (s : State) :
  tick k raises s = s
  ∨ ∃ id i rest,
      threads s !! k = Some {| t_job := id; t_code := i :: rest |}
      ∧ ((∃ js, exec id i raises (jobs s) = Some js
                ∧ tick k raises s
                  = {| jobs := js;
                       threads := <[k := {| t_job := id; t_code := rest |}]>
                                    (threads s) |})
         ∨ tick k raises s
           = {| jobs := jobs s;
                threads := <[k := {| t_job := id; t_code := [] |}]>
                             (threads s) |}).
Proof.
  unfold tick. destruct (threads s !! k) as [[id [|i rest]]|] eqn:Hk; auto.
  right. exists id, i, rest. split; [reflexivity|].
  destruct (exec id i raises (jobs s)) as [js|]; eauto.
Qed.

(** Replacing the code of thread [k] keeps every thread's job. *)
Lemma lookup_recode (ts : list Thread) (k k' : nat) (id : string)
    (code code' : list Instr) (t' : Thread) :
  ts !! k = Some {| t_job := id; t_code := code |} →
  <[k := {| t_job := id; t_code := code' |}]> ts !! k' = Some t' →
  (k' = k ∧ t' = {| t_job := id; t_code := code' |})
  ∨ (k' ≠ k ∧ ts !! k' = Some t').
Proof.
  intros Hk Hk'. destruct (decide (k' = k)) as [->|Hne].
  - left. split; [reflexivity|].
    rewrite list_lookup_insert_eq in Hk' by (eapply lookup_lt_Some; eauto).
    congruence.
  - right. split; [assumption|].
    rewrite list_lookup_insert_ne in Hk' by congruence. assumption.
Qed.

(** *** The invariant *)

Lemma inv_init : inv init.
Proof. split; cbn; intros *; try rewrite lookup_nil; done. Qed.

Lemma inv_generate (id : string) (s : State) :
  inv s → jobs s !! id = None → inv (generate steps id s).1.
Proof.
  intros [Hknown Huniq Hshape Hlive Hstatus] Hid.
  assert (Hold : ∀ k t, threads s !! k = Some t → t_job t ≠ id).
  { intros k t Hk Heq. destruct (Hknown k t Hk) as [j Hj]. congruence. }
  assert (Hnew : ∀ k t,
    (threads s ++ [{| t_job := id; t_code := do_generation steps |}])%list !! k
      = Some t →
    threads s !! k = Some t
    ∨ (k = length (threads s)
       ∧ t = {| t_job := id; t_code := do_generation steps |})).
  { intros k t Hk. apply lookup_app_Some in Hk as [Hk | [Hlen Hk]]; [auto|].
    right. apply list_lookup_singleton_Some in Hk as [Hk <-].
    split; [lia | reflexivity]. }
  split; cbn.
  - intros k t Hk. destruct (Hnew k t Hk) as [Hk' | [_ ->]]; cbn.
    + rewrite lookup_insert_ne by (intros Heq; exact (Hold _ _ Hk' (eq_sym Heq))).
      eauto.
    + rewrite lookup_insert_eq. eauto.
  - intros k1 k2 t1 t2 Hk1 Hk2 Heq.
    destruct (Hnew k1 t1 Hk1) as [Hk1' | [-> ->]],
             (Hnew k2 t2 Hk2) as [Hk2' | [-> ->]]; cbn in Heq.
    + eauto.
    + exfalso. exact (Hold _ _ Hk1' Heq).
    + exfalso. exact (Hold _ _ Hk2' (eq_sym Heq)).
    + reflexivity.
  - intros k t Hk. destruct (Hnew k t Hk) as [Hk' | [_ ->]]; cbn.
    + eauto.
    + apply worker_code_do_generation.
  - intros k t j Hk Hcode Hj.
    destruct (Hnew k t Hk) as [Hk' | [_ ->]]; cbn in *.
    + rewrite lookup_insert_ne in Hj by (intros Heq; exact (Hold _ _ Hk' (eq_sym Heq))).
      eauto.
    + rewrite lookup_insert_eq in Hj. by injection Hj as <-.
  - intros id' j Hj. destruct (decide (id' = id)) as [->|Hne].
    + rewrite lookup_insert_eq in Hj. injection Hj as <-. by left.
    + rewrite lookup_insert_ne in Hj by congruence. eauto.
Qed.

Lemma inv_tick (k : nat) (raises : bool) (s : State) :
  inv s → inv (tick k raises s).
Proof.
  intros Hinv.
  destruct (tick_cases k raises s)
    as [-> | (id & i & rest & Hk & [(js & Hexec & ->) | ->])];
    [assumption | |];
    destruct Hinv as [Hknown Huniq Hshape Hlive Hstatus].
  - (* the action ran *)
    pose proof (λ id', exec_lookup id id' i raises _ _ Hexec) as Hjs.
    destruct (Hknown _ _ Hk) as [j0 Hj0]; cbn in Hj0.
    assert (Hother : ∀ k' t', k' ≠ k → threads s !! k' = Some t' →
              js !! t_job t' = jobs s !! t_job t').
    { intros k' t' Hne Hk'. rewrite Hjs. case_decide as Heq; [|reflexivity].
      exfalso. apply Hne. eapply Huniq; eauto. }
    split; cbn.
    + intros k' t' Hk'.
      destruct (lookup_recode _ _ _ _ _ _ _ Hk Hk') as [[-> ->] | [Hne Hold]];
        cbn.
      * rewrite Hjs, decide_True, Hj0 by reflexivity. cbn. eauto.
      * rewrite (Hother _ _ Hne Hold). eauto.
    + intros k1 k2 t1 t2 Hk1 Hk2 Heq.
      destruct (lookup_recode _ _ _ _ _ _ _ Hk Hk1) as [[-> ->] | [Hne1 Hold1]],
               (lookup_recode _ _ _ _ _ _ _ Hk Hk2) as [[-> ->] | [Hne2 Hold2]];
        cbn in Heq; try reflexivity; eauto.
    + intros k' t' Hk'.
      destruct (lookup_recode _ _ _ _ _ _ _ Hk Hk') as [[-> ->] | [Hne Hold]];
        cbn; [|eauto].
      eapply worker_code_tail. exact (Hshape _ _ Hk).
    + intros k' t' j Hk' Hcode Hj.
      destruct (lookup_recode _ _ _ _ _ _ _ Hk Hk') as [[-> ->] | [Hne Hold]];
        cbn in *.
      * rewrite Hjs, decide_True, Hj0 in Hj by reflexivity.
        injection Hj as <-.
        destruct (worker_code_status i rest j0 (Hshape _ _ Hk))
          as [-> | [_ ->]]; [|done].
        eapply (Hlive k); eauto.
      * rewrite (Hother _ _ Hne Hold) in Hj. eauto.
    + intros id' j Hj. rewrite Hjs in Hj. case_decide as Heq; [|eauto].
      rewrite Hj0 in Hj. injection Hj as <-.
      destruct (worker_code_status i rest j0 (Hshape _ _ Hk))
        as [-> | [-> _]]; [eauto | by right].
  - (* the action raised: the thread is over *)
    split; cbn.
    + intros k' t' Hk'.
      destruct (lookup_recode _ _ _ _ _ _ _ Hk Hk') as [[-> ->] | [Hne Hold]];
        [exact (Hknown _ _ Hk) | eauto].
    + intros k1 k2 t1 t2 Hk1 Hk2 Heq.
      destruct (lookup_recode _ _ _ _ _ _ _ Hk Hk1) as [[-> ->] | [Hne1 Hold1]],
               (lookup_recode _ _ _ _ _ _ _ Hk Hk2) as [[-> ->] | [Hne2 Hold2]];
        cbn in Heq; try reflexivity; eauto.
    + intros k' t' Hk'.
      destruct (lookup_recode _ _ _ _ _ _ _ Hk Hk') as [[-> ->] | [Hne Hold]];
        cbn; eauto.
    + intros k' t' j Hk' Hcode Hj.
      destruct (lookup_recode _ _ _ _ _ _ _ Hk Hk') as [[-> ->] | [Hne Hold]];
        cbn in *; [done | eauto].
    + eauto.
Qed.

(** *** What one event does to one record *)

(** A record either stays as it is, or takes the next action of the one
    thread started for it. *)
Lemma step_job (ev : Event) (s : State) (id : string) (j : Job) :
  event_fresh ev s → jobs s !! id = Some j →
  jobs (step steps ev s) !! id = Some j
  ∨ ∃ k i rest,
      threads s !! k = Some {| t_job := id; t_code := i :: rest |}
      ∧ jobs (step steps ev s) !! id = Some (update i j).
Proof.
  intros Hfresh Hj. destruct ev as [id0 | k raises]; cbn in *.
  - left. rewrite lookup_insert_ne by congruence. assumption.
  - destruct (tick_cases k raises s)
      as [-> | (id0 & i & rest & Hk & [(js & Hexec & ->) | ->])];
      cbn; auto.
    rewrite (exec_lookup _ id _ _ _ _ Hexec).
    case_decide as Heq; [subst id0 | auto].
    right. exists k, i, rest. rewrite Hj. auto.
Qed.

Lemma step_status (ev : Event) (s : State) (id : string) (j : Job) :
  inv s → event_fresh ev s → jobs s !! id = Some j →
  ∃ j', jobs (step steps ev s) !! id = Some j'
        ∧ (status j' = status j ∨ edge (status j) (status j')).
Proof.
  intros Hinv Hfresh Hj.
  destruct (step_job ev s id j Hfresh Hj) as [Hsame | (k & i & rest & Hk & Hup)];
    [eauto|].
  exists (update i j). split; [assumption|].
  destruct (worker_code_status i rest j (inv_shape s Hinv _ _ Hk))
    as [-> | [-> _]]; [by left | right].
  rewrite (inv_live s Hinv k _ j Hk); [constructor | done | done].
Qed.

Lemma update_percent (i : Instr) (rest : list Instr) (j : Job) :
  0 ≤ percent j ≤ 100 →
  ascending (percent j) (pending (i :: rest)) →
  Forall (λ p, p ≤ 100) (pending (i :: rest)) →
  percent j ≤ percent (update i j) ≤ 100
  ∧ ascending (percent (update i j)) (pending rest)
  ∧ Forall (λ p, p ≤ 100) (pending rest).
Proof.
  intros Hb Hasc Hall. destruct i; cbn in *;
    try (split; [lia | split; assumption]).
  destruct Hasc as [Hle Hasc]. apply Forall_cons in Hall as [Hp Hall].
  split; [lia | split; assumption].
Qed.

Lemma step_percent_le (ev : Event) (s : State) (id : string) (j : Job) :
  inv_percent s → event_fresh ev s → jobs s !! id = Some j →
  ∃ j', jobs (step steps ev s) !! id = Some j' ∧ percent j ≤ percent j'.
Proof.
  intros Hpct Hfresh Hj.
  destruct (step_job ev s id j Hfresh Hj) as [Hsame | (k & i & rest & Hk & Hup)].
  - exists j. split; [assumption | lia].
  - exists (update i j). split; [assumption|].
    destruct (pct_pending s Hpct k _ j Hk Hj) as [Hasc Hall].
    apply (update_percent i rest j (pct_bounds s Hpct id j Hj) Hasc Hall).
Qed.

(** *** The invariant of [percent] *)

Lemma inv_percent_init : inv_percent init.
Proof. split; cbn; intros *; try rewrite lookup_nil; done. Qed.

Lemma inv_percent_generate (id : string) (s : State) :
  steps_ok steps → inv s → inv_percent s → jobs s !! id = None →
  inv_percent (generate steps id s).1.
Proof.
  intros [Hasc Hall] Hinv [Hb Hp] Hid. split; cbn.
  - intros id' j Hj. destruct (decide (id' = id)) as [->|Hne].
    + rewrite lookup_insert_eq in Hj. injection Hj as <-. cbn. lia.
    + rewrite lookup_insert_ne in Hj by congruence. eauto.
  - intros k t j Hk Hj.
    apply lookup_app_Some in Hk as [Hk | [_ Hk]].
    + rewrite lookup_insert_ne in Hj; [eauto|].
      intros Heq. destruct (inv_known s Hinv k t Hk) as [j' Hj'].
      congruence.
    + apply list_lookup_singleton_Some in Hk as [_ <-]. cbn [t_job] in Hj.
      rewrite lookup_insert_eq in Hj. injection Hj as <-.
      cbn [t_code percent]. rewrite pending_do_generation. auto.
Qed.

Lemma inv_percent_tick (k : nat) (raises : bool) (s : State) :
  inv s → inv_percent s → inv_percent (tick k raises s).
Proof.
  intros Hinv Hpct.
  destruct (tick_cases k raises s)
    as [-> | (id & i & rest & Hk & [(js & Hexec & ->) | ->])];
    [assumption | |]; destruct Hpct as [Hb Hp].
  - pose proof (λ id', exec_lookup id id' i raises _ _ Hexec) as Hjs.
    destruct (inv_known s Hinv _ _ Hk) as [j0 Hj0]; cbn in Hj0.
    destruct (Hp _ _ _ Hk Hj0) as [Hasc Hall]; cbn in Hasc, Hall.
    destruct (update_percent i rest j0 (Hb _ _ Hj0) Hasc Hall)
      as (Hle & Hasc' & Hall').
    split; cbn.
    + intros id' j Hj. rewrite Hjs in Hj. case_decide as Heq; [|eauto].
      rewrite Hj0 in Hj. injection Hj as <-.
      pose proof (Hb _ _ Hj0). lia.
    + intros k' t' j Hk' Hj.
      destruct (lookup_recode _ _ _ _ _ _ _ Hk Hk') as [[-> ->] | [Hne Hold]];
        cbn in *.
      * rewrite Hjs, decide_True, Hj0 in Hj by reflexivity.
        injection Hj as <-. auto.
      * rewrite Hjs in Hj. case_decide as Heq; [|eauto].
        exfalso. apply Hne. eapply (inv_unique s Hinv); eauto.
  - split; cbn; [assumption|].
    intros k' t' j Hk' Hj.
    destruct (lookup_recode _ _ _ _ _ _ _ Hk Hk') as [[-> ->] | [Hne Hold]];
      cbn in *; [split; [exact I | constructor] | eauto].
Qed.

(** *** Runs *)

Lemma inv_step (ev : Event) (s : State) :
  inv s → event_fresh ev s → inv (step steps ev s).
Proof.
  destruct ev; cbn; intros; [by apply inv_generate | by apply inv_tick].
Qed.

Lemma inv_percent_step (ev : Event) (s : State) :
  steps_ok steps → inv s → inv_percent s → event_fresh ev s →
  inv_percent (step steps ev s).
Proof.
  destruct ev; cbn; intros;
    [by apply inv_percent_generate | by apply inv_percent_tick].
Qed.

Lemma run_app (evs1 evs2 : list Event) (s : State) :
  run steps (evs1 ++ evs2) s = run steps evs2 (run steps evs1 s).
Proof. apply foldl_app. Qed.

Lemma fresh_run_app (evs1 evs2 : list Event) (s : State) :
  fresh_run steps (evs1 ++ evs2) s →
  fresh_run steps evs1 s ∧ fresh_run steps evs2 (run steps evs1 s).
Proof.
  revert s. induction evs1 as [|ev evs1 IH]; cbn; intros s; [auto|].
  intros [Hev Hrest]. destruct (IH _ Hrest). auto.
Qed.

(** A run keeps an invariant of the state, and relates each record to what
    it has become, when every event does. *)
Lemma run_induction (I : State → Prop) (R : Job → Job → Prop) :
  (∀ j, R j j) →
  (∀ j1 j2 j3, R j1 j2 → R j2 j3 → R j1 j3) →
  (∀ ev s, I s → event_fresh ev s →
     I (step steps ev s)
     ∧ ∀ id j, jobs s !! id = Some j →
         ∃ j', jobs (step steps ev s) !! id = Some j' ∧ R j j') →
  ∀ evs s, I s → fresh_run steps evs s →
    I (run steps evs s)
    ∧ ∀ id j, jobs s !! id = Some j →
        ∃ j', jobs (run steps evs s) !! id = Some j' ∧ R j j'.
Proof.
  intros Hrefl Htrans Hstep evs.
  induction evs as [|ev evs IH]; cbn; intros s HI Hfresh; [eauto|].
  destruct Hfresh as [Hev Hrest].
  destruct (Hstep ev s HI Hev) as [HI' Hone].
  destruct (IH _ HI' Hrest) as [HI'' Hmany].
  split; [assumption|]. intros id j Hj.
  destruct (Hone id j Hj) as (j1 & Hj1 & HR1).
  destruct (Hmany id j1 Hj1) as (j2 & Hj2 & HR2). eauto.
Qed.

Lemma tick_lookup_None (k : nat) (raises : bool) (s : State) (id : string) :
  jobs s !! id = None → jobs (tick k raises s) !! id = None.
Proof.
  intros Hid.
  destruct (tick_cases k raises s)
    as [-> | (id0 & i & rest & Hk & [(js & Hexec & ->) | ->])];
    cbn; auto.
  rewrite (exec_lookup _ id _ _ _ _ Hexec).
  case_decide as Heq; [subst id0; rewrite Hid|]; done.
Qed.

(** Identifiers that never repeat are new to the registry at each draw. *)
Lemma fresh_ids_fresh_run (evs : list Event) (s : State) :
  fresh_ids evs →
  (∀ id, id ∈ generated evs → jobs s !! id = None) →
  fresh_run steps evs s.
Proof.
  unfold fresh_ids. revert s.
  induction evs as [|[id | k raises] evs IH]; cbn; intros s Hnd Hnew;
    [exact I | |].
  - apply NoDup_cons in Hnd as [Hnotin Hnd].
    split; [apply Hnew; left|].
    apply IH; [assumption|]. intros id' Hin. cbn.
    rewrite lookup_insert_ne by (intros ->; contradiction).
    apply Hnew. by right.
  - split; [exact I|]. apply IH; [assumption|].
    intros id' Hin. apply tick_lookup_None. auto.
Qed.

Lemma fresh_from_init (evs : list Event) :
  fresh_ids evs → fresh_run steps evs init.
Proof. intros. by apply fresh_ids_fresh_run. Qed.

End WithSteps.

(** *** The status order *)

Lemma forward_completed (s : Status) : forward completed s → s = completed.
Proof.
  intros H. apply rtc_inv in H as [-> | (s' & Hedge & _)];
    [reflexivity | inversion Hedge].
Qed.

Lemma forward_failed (s : Status) : forward failed s → s = failed.
Proof.
  intros H. apply rtc_inv in H as [-> | (s' & Hedge & _)];
    [reflexivity | inversion Hedge].
Qed.

(** Nothing leads back: not from a final status, and not to [queued]. *)
Lemma forward_no_regress :
  ¬ forward completed running ∧ ¬ forward failed running
  ∧ ¬ forward completed failed ∧ ¬ forward failed completed
  ∧ ¬ forward running queued.
Proof.
  repeat split; intros H.
  1-2: apply forward_completed in H || apply forward_failed in H; discriminate.
  1-2: apply forward_completed in H || apply forward_failed in H; discriminate.
  apply rtc_inv in H as [? | (s' & Hedge & Hrest)]; [discriminate|].
  inversion Hedge; subst;
    apply forward_completed in Hrest || apply forward_failed in Hrest;
    discriminate.
Qed.

(** C1: in every run in which job identifiers do not repeat, a record that
    a read has seen is there at every later read, and its status has only
    moved forward along [queued → running → completed | failed]: one event
    takes at most one such transition, and a [completed] or [failed] record
    keeps its status. *)
Theorem status_only_moves_forward
    (steps : list Step) (evs1 evs2 : list Event) (id : string) (j1 : Job) :
  fresh_ids (evs1 ++ evs2) →
  jobs (run steps evs1 init) !! id = Some j1 →
  ∃ j2, jobs (run steps (evs1 ++ evs2) init) !! id = Some j2
        ∧ forward (status j1) (status j2)
        ∧ (length evs2 = 1%nat →
           status j2 = status j1 ∨ edge (status j1) (status j2))
        ∧ (status j1 = completed → status j2 = completed)
        ∧ (status j1 = failed → status j2 = failed).
Proof.
  intros Hfresh Hj1.
  destruct (fresh_run_app steps _ _ _ (fresh_from_init steps _ Hfresh))
    as [Hf1 Hf2].
  assert (Hrun : ∀ evs s, inv s → fresh_run steps evs s →
            inv (run steps evs s)
            ∧ ∀ id j, jobs s !! id = Some j →
                ∃ j', jobs (run steps evs s) !! id = Some j'
                      ∧ forward (status j) (status j')).
  { apply (run_induction steps inv
             (λ j j', forward (status j) (status j'))).
    - intros j. apply rtc_refl.
    - intros j j' j''. apply rtc_trans.
    - intros ev s Hinv Hev. split; [by apply inv_step|].
      intros id' j Hj.
      destruct (step_status steps ev s id' j Hinv Hev Hj)
        as (j' & Hj' & [Heq | Hedge]); exists j'; split; try assumption.
      + rewrite Heq. apply rtc_refl.
      + by apply rtc_once. }
  destruct (Hrun evs1 init inv_init Hf1) as [Hinv1 _].
  destruct (Hrun evs2 _ Hinv1 Hf2) as [_ Hlater].
  destruct (Hlater id j1 Hj1) as (j2 & Hj2 & Hfwd).
  exists j2. rewrite run_app. split; [assumption|]. split; [assumption|].
  split; [|split].
  - destruct evs2 as [|ev [|? ?]]; cbn; try discriminate. intros _.
    destruct Hf2 as [Hev _].
    destruct (step_status steps ev _ id j1 Hinv1 Hev Hj1) as (j' & Hj' & Hst).
    cbn in Hj2. congruence.
  - intros Heq. rewrite Heq in Hfwd. by apply forward_completed.
  - intros Heq. rewrite Heq in Hfwd. by apply forward_failed.
Qed.

Lemma status_only_moves_forward_witness :
  let steps := [mkStep 50 "Building slides..."] in
  let evs1 := [Generate "ab12cd34"; Tick 0 false] in
  let evs2 := [Tick 0 false; Tick 0 false; Tick 0 false] in
  let j1 := {| status := running; percent := 50; message := "Starting..." |} in
  fresh_ids (evs1 ++ evs2)
  ∧ jobs (run steps evs1 init) !! "ab12cd34" = Some j1
  ∧ ∃ j2, jobs (run steps (evs1 ++ evs2) init) !! "ab12cd34" = Some j2
          ∧ forward (status j1) (status j2).
Proof.
  intros steps evs1 evs2 j1.
  assert (Hfresh : fresh_ids (evs1 ++ evs2)) by apply NoDup_singleton.
  assert (Hj1 : jobs (run steps evs1 init) !! "ab12cd34" = Some j1)
    by (vm_compute; reflexivity).
  destruct (status_only_moves_forward steps evs1 evs2 "ab12cd34" j1 Hfresh Hj1)
    as (j2 & Hj2 & Hfwd & _).
  split; [exact Hfresh|]. split; [exact Hj1|]. exists j2. auto.
Defined.

(** A run on which the record goes from [running] to [completed]. *)
Example run_to_completion :
  let steps := [mkStep 50 "Building slides..."] in
  status <$> jobs (run steps [Generate "ab12cd34"] init) !! "ab12cd34"
  = Some running
  ∧ status <$> jobs (run steps [Generate "ab12cd34"; Tick 0 false; Tick 0 false;
                               Tick 0 false; Tick 0 false] init) !! "ab12cd34"
    = Some completed.
Proof. split; vm_compute; reflexivity. Qed.

(** A step whose work raises ends the thread: the record stays [running]. *)
Example run_with_failure :
  let steps := [mkStep 50 "Building slides..."] in
  jobs (run steps [Generate "ab12cd34"; Tick 0 false; Tick 0 false;
                   Tick 0 true; Tick 0 false; Tick 0 false] init) !! "ab12cd34"
  = Some {| status := running; percent := 50;
            message := "Building slides..." |}.
Proof. vm_compute; reflexivity. Qed.

(** When [uuid4] repeats an identifier, the new record replaces a completed
    one: the uniqueness of identifiers is needed. *)
Example repeated_id_restarts :
  let steps : list Step := [] in
  status <$> jobs (run steps [Generate "ab12cd34"; Tick 0 false] init)
             !! "ab12cd34" = Some completed
  ∧ status <$> jobs (run steps [Generate "ab12cd34"; Tick 0 false;
                               Generate "ab12cd34"] init) !! "ab12cd34"
    = Some running.
Proof. split; vm_compute; reflexivity. Qed.

(** C2, as stated, fails: the record [generate] creates is [running], not
    [queued]. *)
Lemma generate_record_not_queued :
  let steps := [mkStep 50 "Building slides..."] in
  let s := (generate steps "ab12cd34" init).1 in
  status <$> jobs s !! "ab12cd34" = Some running
  ∧ status <$> jobs s !! "ab12cd34" ≠ Some queued.
Proof. split; [vm_compute; reflexivity | vm_compute; discriminate]. Qed.

(** C2 (amended): [generate] puts a new record for the identifier in the
    registry, in the [running] state with [percent] 0 and the message
    'Starting...', starts its worker, leaves the other records alone, and
    returns the identifier at once; its response is
    [{job_id, status: 'queued'}] for every request. *)
Theorem generate_creates_running_record
    (steps : list Step) (id : string) (s : State) :
  jobs (generate steps id s).1 !! id
  = Some {| status := running; percent := 0; message := "Starting..." |}
  ∧ (generate steps id s).2 = {| job_id := id; started_status := queued |}
  ∧ status_str (started_status (generate steps id s).2) = "queued"
  ∧ threads (generate steps id s).1
    = (threads s ++ [{| t_job := id; t_code := do_generation steps |}])%list
  ∧ ∀ id', id' ≠ id → jobs (generate steps id s).1 !! id' = jobs s !! id'.
Proof.
  cbn. split; [apply lookup_insert_eq|]. repeat split.
  intros id' Hne. by rewrite lookup_insert_ne.
Qed.

(** C4: when the step table lists percents in ascending order within
    0..100, then in every run in which job identifiers do not repeat the
    [percent] of a record is between 0 and 100 at every read and is not
    smaller at a later read than at an earlier one (whatever the status, so
    in particular while it is [running]). *)
Theorem percent_bounded_and_monotone
    (steps : list Step) (evs1 evs2 : list Event) (id : string) (j1 j2 : Job) :
  steps_ok steps →
  fresh_ids (evs1 ++ evs2) →
  jobs (run steps evs1 init) !! id = Some j1 →
  jobs (run steps (evs1 ++ evs2) init) !! id = Some j2 →
  0 ≤ percent j1 ≤ 100 ∧ 0 ≤ percent j2 ≤ 100 ∧ percent j1 ≤ percent j2.
Proof.
  intros Hsteps Hfresh Hj1 Hj2.
  destruct (fresh_run_app steps _ _ _ (fresh_from_init steps _ Hfresh))
    as [Hf1 Hf2].
  assert (Hrun : ∀ evs s, inv s ∧ inv_percent s → fresh_run steps evs s →
            (inv (run steps evs s) ∧ inv_percent (run steps evs s))
            ∧ ∀ id j, jobs s !! id = Some j →
                ∃ j', jobs (run steps evs s) !! id = Some j'
                      ∧ percent j ≤ percent j').
  { apply (run_induction steps (λ s, inv s ∧ inv_percent s)
             (λ j j', percent j ≤ percent j')).
    - intros j. lia.
    - intros j j' j''. lia.
    - intros ev s [Hinv Hpct] Hev. split.
      + split; [by apply inv_step | by apply inv_percent_step].
      + intros id' j Hj. by apply step_percent_le. }
  destruct (Hrun evs1 init (conj inv_init inv_percent_init) Hf1)
    as [[Hinv1 Hpct1] _].
  destruct (Hrun evs2 _ (conj Hinv1 Hpct1) Hf2) as [[_ Hpct2] Hlater].
  destruct (Hlater id j1 Hj1) as (j2' & Hj2' & Hle).
  rewrite run_app in Hj2. assert (j2' = j2) as -> by congruence.
  split; [exact (pct_bounds _ Hpct1 id j1 Hj1)|].
  split; [exact (pct_bounds _ Hpct2 id j2 Hj2) | exact Hle].
Qed.

Lemma percent_bounded_and_monotone_witness :
  let steps := [mkStep 10 "Writing copy..."; mkStep 45 "Building slides..."] in
  let evs1 := [Generate "ab12cd34"; Tick 0 false] in
  let evs2 := [Tick 0 false; Tick 0 false; Tick 0 false] in
  let j1 := {| status := running; percent := 10; message := "Starting..." |} in
  let j2 := {| status := running; percent := 45;
               message := "Writing copy..." |} in
  steps_ok steps
  ∧ fresh_ids (evs1 ++ evs2)
  ∧ jobs (run steps evs1 init) !! "ab12cd34" = Some j1
  ∧ jobs (run steps (evs1 ++ evs2) init) !! "ab12cd34" = Some j2
  ∧ 0 ≤ percent j1 ≤ 100 ∧ 0 ≤ percent j2 ≤ 100 ∧ percent j1 ≤ percent j2.
Proof.
  intros steps evs1 evs2 j1 j2.
  assert (Hsteps : steps_ok steps).
  { split; cbn; [lia | repeat (constructor; [lia|]); constructor]. }
  assert (Hfresh : fresh_ids (evs1 ++ evs2)) by apply NoDup_singleton.
  assert (Hj1 : jobs (run steps evs1 init) !! "ab12cd34" = Some j1)
    by (vm_compute; reflexivity).
  assert (Hj2 : jobs (run steps (evs1 ++ evs2) init) !! "ab12cd34" = Some j2)
    by (vm_compute; reflexivity).
  split; [exact Hsteps|]. split; [exact Hfresh|].
  split; [exact Hj1|]. split; [exact Hj2|].
  exact (percent_bounded_and_monotone steps evs1 evs2 "ab12cd34" j1 j2
           Hsteps Hfresh Hj1 Hj2).
Defined.

(** Without the order on the step table the percent can go down. *)
Example unordered_steps_regress :
  let steps := [mkStep 60 "a"; mkStep 20 "b"] in
  percent <$> jobs (run steps [Generate "ab12cd34"; Tick 0 false] init)
              !! "ab12cd34" = Some 60
  ∧ percent <$> jobs (run steps [Generate "ab12cd34"; Tick 0 false;
                                Tick 0 false; Tick 0 false; Tick 0 false] init)
                !! "ab12cd34" = Some 20.
Proof. split; vm_compute; reflexivity. Qed.

(** C5: a status read of an identifier that is not a key of the registry is
    not-found (404) and nothing else; a read of a known identifier gives the
    record as it is in the registry; neither changes the registry. *)
Theorem get_status_snapshot_or_not_found (id : string) (s : State) :
  (get_status id s).2 = s
  ∧ ((get_status id s).1 = NotFound ↔ jobs s !! id = None)
  ∧ (status_code (get_status id s).1 = 404 ↔ jobs s !! id = None)
  ∧ (∀ j, (get_status id s).1 = Found j ↔ jobs s !! id = Some j).
Proof.
  unfold get_status. destruct (jobs s !! id) as [j|]; cbn.
  - repeat split; try done. all: intros; congruence.
  - repeat split; try done.
Qed.

End JobsFacts.

(** ** Voice pipeline *)

Module VoiceFacts.
Import Voice.

(** The three stages, in the order the pipeline calls them. *)
Example stages_in_order :
  stage_of <$> [Transcribe "a"; Chat "s" "q"; Speech "x"]
  = [transcribe; generate; synthesize].
Proof. reflexivity. Qed.

(** C6: a call of [voice_chat] gives either the whole reply, made by
    transcribing, then answering the transcript, then speaking the answer,
    each service called once and in this order; or one exception, the one of
    the first step that failed, with the later services not called.  Nothing
    else comes back: no part of a reply accompanies an error, and no service
    is called twice. *)
Theorem voice_chat_all_or_nothing
    (OpenAI : Exn + unit) (b64decode : json → Exn + string)
    (b64encode : string → string) (format : json → string)
    (transcriptions_create : string → Exn + string)
    (completions_create : string → string → Exn + string)
    (speech_create : string → Exn + string) (data : json) :
  let result :=
    voice_chat OpenAI b64decode b64encode format transcriptions_create
      completions_create speech_create data [] in
  let system title := "Answer questions about: " +:+ format title in
  stage_of <$> result.2 `prefix_of` [transcribe; generate; synthesize]
  ∧ match result.1 with
    | inr reply =>
        ∃ a audio_bytes title tts,
          OpenAI = inr ()
          ∧ subscript data "audio" = inr a
          ∧ b64decode a = inr audio_bytes
          ∧ transcriptions_create audio_bytes = inr (question reply)
          ∧ subscript data "title" = inr title
          ∧ completions_create (system title) (question reply)
            = inr (answer reply)
          ∧ speech_create (answer reply) = inr tts
          ∧ audio reply = b64encode tts
          ∧ result.2 = [Transcribe audio_bytes;
                        Chat (system title) (question reply);
                        Speech (answer reply)]
    | inl e =>
        (result.2 = []
         ∧ (OpenAI = inl e
            ∨ subscript data "audio" = inl e
            ∨ ∃ a, subscript data "audio" = inr a ∧ b64decode a = inl e))
        ∨ (∃ audio_bytes,
             result.2 = [Transcribe audio_bytes]
             ∧ (transcriptions_create audio_bytes = inl e
                ∨ subscript data "title" = inl e))
        ∨ (∃ audio_bytes title q,
             result.2 = [Transcribe audio_bytes; Chat (system title) q]
             ∧ transcriptions_create audio_bytes = inr q
             ∧ completions_create (system title) q = inl e)
        ∨ (∃ audio_bytes title q ans,
             result.2 = [Transcribe audio_bytes; Chat (system title) q;
                         Speech ans]
             ∧ completions_create (system title) q = inr ans
             ∧ speech_create ans = inl e)
    end.
Proof.
  intros result system. subst result.
  unfold voice_chat, mbind, P_bind, mret, P_ret, lift, call.
  destruct OpenAI as [e | []]; cbn -[String.append].
  { split; [by exists [transcribe; generate; synthesize] |].
    left. split; [reflexivity | by left]. }
  destruct (subscript data "audio") as [e | a]; cbn -[String.append].
  { split; [by exists [transcribe; generate; synthesize] |].
    left. split; [reflexivity | right; by left]. }
  destruct (b64decode a) as [e | audio_bytes] eqn:Hdec; cbn -[String.append].
  { split; [by exists [transcribe; generate; synthesize] |].
    left. split; [reflexivity | right; right; by exists a]. }
  destruct (transcriptions_create audio_bytes) as [e | q] eqn:Hq;
    cbn -[String.append].
  { split; [by exists [generate; synthesize] |].
    right; left. exists audio_bytes. split; [reflexivity | by left]. }
  destruct (subscript data "title") as [e | title]; cbn -[String.append].
  { split; [by exists [generate; synthesize] |].
    right; left. exists audio_bytes. split; [reflexivity | by right]. }
  fold (system title).
  destruct (completions_create (system title) q) as [e | ans] eqn:Hans;
    cbn -[String.append].
  { split; [by exists [synthesize] |].
    right; right; left. by exists audio_bytes, title, q. }
  destruct (speech_create ans) as [e | tts] eqn:Htts; cbn -[String.append].
  { split; [by exists [] |].
    right; right; right. by exists audio_bytes, title, q, ans. }
  split; [by exists [] |]. by exists a, audio_bytes, title, tts.
Qed.

(** A reply, and an error after two stages. *)
Example voice_chat_runs :
  let data := JObj [("audio", JStr "UklGRg=="); ("title", JStr "AI news")] in
  let decode (j : json) : Exn + string := inr "RIFF" in
  let fmt (j : json) := match j with JStr s => s | _ => EmptyString end in
  voice_chat (inr ()) decode (λ s, s) fmt (λ _, inr "What is new?")
    (λ _ _, inr "A lot.") (λ _, inr "mp3") data []
  = (inr {| question := "What is new?"; answer := "A lot."; audio := "mp3" |},
     [Transcribe "RIFF";
      Chat "Answer questions about: AI news" "What is new?";
      Speech "A lot."])
  ∧ voice_chat (inr ()) decode (λ s, s) fmt (λ _, inr "What is new?")
      (λ _ _, inl (mkExn "rate limit")) (λ _, inr "mp3") data []
    = (inl (mkExn "rate limit"),
       [Transcribe "RIFF";
        Chat "Answer questions about: AI news" "What is new?"]).
Proof. split; reflexivity. Qed.

End VoiceFacts.

(** ** Front end *)

Module FrontendFacts.
Import Frontend.

Ltac swipe_cases :=
  unfold touchend; cbn zeta;
  rewrite ?Z.gtb_ltb;
  repeat match goal with
         | |- context [(?a <? ?b)] => destruct (Z.ltb_spec a b)
         end.

(** X1: a gesture is ignored exactly when the finger has moved at most 50
    pixels along both axes. *)
Theorem swipe_dead_zone (startX startY endX endY : Z) :
  touchend startX startY endX endY = None
  ↔ Z.abs (endX - startX) ≤ 50 ∧ Z.abs (endY - startY) ≤ 50.
Proof. swipe_cases; split; try discriminate; try lia; auto. Qed.

(** X2: which direction a gesture gives: horizontal when the horizontal
    move is strictly the larger one, vertical otherwise (so on a tie), and
    only beyond 50 pixels. *)
Theorem swipe_direction (startX startY endX endY : Z) :
  let deltaX := endX - startX in
  let deltaY := endY - startY in
  (touchend startX startY endX endY = Some Right
   ↔ 50 < deltaX ∧ Z.abs deltaY < deltaX)
  ∧ (touchend startX startY endX endY = Some Left
     ↔ deltaX < -50 ∧ Z.abs deltaY < - deltaX)
  ∧ (touchend startX startY endX endY = Some Down
     ↔ 50 < deltaY ∧ Z.abs deltaX ≤ deltaY)
  ∧ (touchend startX startY endX endY = Some Up
     ↔ deltaY < -50 ∧ Z.abs deltaX ≤ - deltaY).
Proof.
  intros deltaX deltaY. subst deltaX deltaY.
  repeat split;
    try match goal with H : touchend _ _ _ _ = _ |- _ => revert H end;
    swipe_cases; intros; try discriminate; try lia; auto.
Qed.

(** X3: the gesture made backwards gives the opposite direction, or is
    ignored as well. *)
Theorem swipe_reversed (startX startY endX endY : Z) :
  touchend endX endY startX startY
  = opposite <$> touchend startX startY endX endY.
Proof.
  unfold touchend; cbn zeta.
  replace (startX - endX) with (- (endX - startX)) by lia.
  replace (startY - endY) with (- (endY - startY)) by lia.
  rewrite !Z.abs_opp, ?Z.gtb_ltb.
  repeat match goal with
         | |- context [(?a <? ?b)] => destruct (Z.ltb_spec a b)
         end; cbn; try reflexivity; lia.
Qed.

Lemma is_str_spec (v : option json) (s : string) :
  is_str v s = true ↔ v = Some (JStr s).
Proof.
  destruct v as [[]|]; cbn; try (split; [discriminate | congruence]).
  rewrite String.eqb_eq. split; congruence.
Qed.

Lemma poll_once_spec (answer : Exn + json) :
  (pollStatus_once answer).2 = inr true ↔ says_running answer.
Proof.
  unfold says_running. destruct answer as [e | data]; cbn.
  { split; [discriminate | intros (d & Hd & _); discriminate]. }
  assert (data = JNull ∨ data ≠ JNull) as [-> | Hnull]
    by (destruct data; [left | right ..]; done).
  { cbn. split; [discriminate | intros (d & [= <-] & Hd & _); done]. }
  replace (member data "percent") with
    (inr (JS.get_prop data "percent") : Exn + option json)
    by (destruct data; done).
  destruct (is_str (JS.get_prop data "status") "running") eqn:Hrun.
  - cbn. split; [intros _ | done].
    exists data. apply is_str_spec in Hrun. auto.
  - split.
    + repeat case_match; cbn; discriminate.
    + intros (d & [= <-] & _ & Hst). apply is_str_spec in Hst. congruence.
Qed.

(** X4: a call of [pollStatus] arms the next one exactly when the request
    and the parsing succeed and the answer is an object whose [status] is
    the string 'running'. *)
Theorem poll_again_iff_running (answer : Exn + json) :
  (pollStatus_once answer).2 = inr true ↔ says_running answer.
Proof. apply poll_once_spec. Qed.

Lemma poll_once_running (answer : Exn + json) :
  says_running answer →
  ∃ ui, pollStatus_once answer = (ui, inr true).
Proof.
  intros H. apply poll_once_spec in H.
  destruct (pollStatus_once answer) as [ui r]. cbn in H. subst r. eauto.
Qed.

Lemma poll_once_stop (answer : Exn + json) :
  ¬ says_running answer →
  ∀ rest, pollStatus (answer :: rest) = ((pollStatus_once answer).1, 1%nat).
Proof.
  intros H rest. rewrite <- poll_once_spec in H. cbn.
  destruct (pollStatus_once answer) as [ui [e | []]]; cbn in *; done.
Qed.

(** X5: the page keeps asking as long as the server says running, once per
    answer and without a limit, and stops at the first answer that does not:
    what the server would answer afterwards is never requested. *)
Theorem polling_stops_at_first_other_answer
    (running_answers : list (Exn + json)) (answer : Exn + json)
    (later : list (Exn + json)) :
  Forall says_running running_answers →
  ¬ says_running answer →
  (pollStatus running_answers).2 = length running_answers
  ∧ pollStatus (running_answers ++ answer :: later)
    = pollStatus (running_answers ++ [answer])
  ∧ (pollStatus (running_answers ++ answer :: later)).2
    = S (length running_answers).
Proof.
  intros Hrun Hstop. induction Hrun as [|a pre Ha Hpre IH].
  - rewrite !app_nil_l, !(poll_once_stop _ Hstop). done.
  - destruct IH as (IH1 & IH2 & IH3).
    destruct (poll_once_running a Ha) as [ui Hui].
    rewrite <- !app_comm_cons. cbn [pollStatus]. rewrite Hui, IH2.
    rewrite IH2 in IH3.
    destruct (pollStatus pre) as [ui1 n1].
    destruct (pollStatus (pre ++ [answer])) as [ui2 n2].
    cbn in *. repeat split; congruence.
Qed.

Lemma polling_stops_at_first_other_answer_witness :
  let running (p : string) : Exn + json :=
    inr (JObj [("status", JStr "running"); ("percent", JNum p)]) in
  let queued : Exn + json :=
    inr (JObj [("status", JStr "queued"); ("percent", JNum "0")]) in
  Forall says_running [running "10"; running "45"]
  ∧ ¬ says_running queued
  ∧ (pollStatus ([running "10"; running "45"] ++ queued :: [running "90"])).2
    = 3%nat.
Proof.
  intros running queued.
  assert (Hrun : Forall says_running [running "10"; running "45"]).
  { repeat constructor; eexists; (split; [reflexivity|]); split; done. }
  assert (Hstop : ¬ says_running queued).
  { intros (d & [= <-] & _ & Hst). discriminate. }
  split; [exact Hrun|]. split; [exact Hstop|].
  exact (proj2 (proj2 (polling_stops_at_first_other_answer
                         [running "10"; running "45"] queued [running "90"]
                         Hrun Hstop))).
Defined.

(** *** The audio in a data URL *)

Lemma split_comma_no_comma (s : string) :
  has_comma s = false → split_comma s = [s].
Proof.
  induction s as [|c s IH]; cbn; [done|].
  destruct (Ascii.eqb c ","); cbn; [done|].
  intros H. by rewrite (IH H).
Qed.

Lemma split_comma_first (header rest : string) :
  has_comma header = false →
  split_comma (header +:+ String "," rest) = header :: split_comma rest.
Proof.
  induction header as [|c h IH]; simpl; [done|].
  destruct (Ascii.eqb c ","); simpl; [done|].
  intros H. by rewrite (IH H).
Qed.

(** X6: from a data URL [header,payload] in which neither part has a comma
    (as with a MIME type followed by base64 text), the page sends exactly
    the payload as the audio. *)
Theorem base64Audio_of_data_url (header payload : string) :
  has_comma header = false →
  has_comma payload = false →
  base64Audio (header +:+ String "," payload) = Some payload
  ∧ voice_chat_body (header +:+ String "," payload)
    = JS.JSON_stringify (JObj [("audio", JStr payload)]).
Proof.
  intros Hh Hp. unfold voice_chat_body, base64Audio.
  rewrite (split_comma_first _ _ Hh), (split_comma_no_comma _ Hp). done.
Qed.

Lemma base64Audio_of_data_url_witness :
  has_comma "data:audio/webm;base64" = false
  ∧ has_comma "SGVsbG8gV29ybGQ" = false
  ∧ base64Audio "data:audio/webm;base64,SGVsbG8gV29ybGQ"
    = Some "SGVsbG8gV29ybGQ".
Proof.
  split; [reflexivity|]. split; [reflexivity|].
  exact (proj1 (base64Audio_of_data_url "data:audio/webm;base64"
                  "SGVsbG8gV29ybGQ" eq_refl eq_refl)).
Defined.

(** X7: when the reader's result has no comma, the audio is [undefined] and
    the body the page posts is the empty object, without an [audio] field. *)
Theorem base64Audio_without_comma (result : string) :
  has_comma result = false →
  base64Audio result = None ∧ voice_chat_body result = "{}".
Proof.
  intros H. unfold voice_chat_body, base64Audio.
  rewrite (split_comma_no_comma _ H). done.
Qed.

Lemma base64Audio_without_comma_witness :
  has_comma "data:" = false
  ∧ base64Audio "data:" = None ∧ voice_chat_body "data:" = "{}".
Proof.
  split; [reflexivity|].
  exact (base64Audio_without_comma "data:" eq_refl).
Defined.

End FrontendFacts.

(** ** Proxy handlers, on every path *)

Module HttpMore.
Import Http Aux.
Import HttpFacts.

(** The sheet-export handler calls the upstream exactly once. *)
Lemma sheets_fetches_once (up : Upstream) (req : Req) :
  outcome (sheets up req) = inr ()
  ∧ calls (sheets up req)
    = [{| f_url := sheets_url (query req !! "gid"); f_method := "GET";
          f_headers := []; f_body := None; f_redirect := Some "follow" |}].
Proof. run_handler. destruct (up _); split; reflexivity. Qed.


(** X9: the sheet-export and the text-to-speech handlers put
    [Access-Control-Allow-Origin: *] on every response, errors included
    (the latter also its allowed methods and headers); a news handler puts
    it exactly on the responses that relay a parsed upstream body, so never
    on its own 500. *)
Theorem cors_on_every_path
    (JSON_parse : string → Exn + json) (env : gmap string string)
    (up : Upstream) (req : Req) :
  allows_any_origin (sheets up req)
  ∧ (allows_any_origin (tts env up req)
     ∧ headers (response (tts env up req)) !! "Access-Control-Allow-Methods"
       = Some "POST, OPTIONS"
     ∧ headers (response (tts env up req)) !! "Access-Control-Allow-Headers"
       = Some "Content-Type")
  ∧ (allows_any_origin (newsapi JSON_parse env up req)
     ↔ ∃ rsp data,
         up (GET (newsapi_url (query req !! "q") (query req !! "pageSize")
                    (env !! "NEWSAPI_KEY"))) = inr rsp
         ∧ JSON_parse (r_body rsp) = inr data)
  ∧ (allows_any_origin (newsdata JSON_parse env up req)
     ↔ ∃ rsp data,
         up (GET (newsdata_url (query req !! "q") (query req !! "language")
                    (env !! "NEWSDATA_KEY"))) = inr rsp
         ∧ JSON_parse (r_body rsp) = inr data).
Proof.
  split; [|split; [|split]].
  - run_handler. destruct (up _); reflexivity.
  - run_handler.
    destruct (String.eqb (method req) "OPTIONS"); [by cbn|].
    destruct (JS.get_prop (body_or_empty (body req)) "text") as [text'|];
      [| by cbn].
    destruct (JS.truthy text'); [| by cbn].
    cbn. destruct (up _) as [e | rsp]; [| destruct (r_ok rsp)]; by cbn.
  - run_handler.
    destruct (up _) as [e | rsp];
      [| destruct (JSON_parse (r_body rsp)) as [e | data] eqn:Hparse];
      cbn; split; try done;
      try (intros (rsp0 & d & [= <-] & H); congruence);
      intros _; eauto.
  - run_handler.
    destruct (up _) as [e | rsp];
      [| destruct (JSON_parse (r_body rsp)) as [e | data] eqn:Hparse];
      cbn; split; try done;
      try (intros (rsp0 & d & [= <-] & H); congruence);
      intros _; eauto.
Qed.




(** One request, in full: the text and the voice of the body, the first
    key of the environment. *)
Example tts_call_in_full :
  let env : gmap string string :=
    {[ "OPENAI_KEY" := "k1"; "OPENAI_API_KEY" := "k2" ]} in
  let req := mkReq "POST" ∅
               (Some (JObj [("voice", JStr "alloy"); ("text", JStr "hi")])) in
  calls (tts env (λ _, inl (mkExn "unreachable")) req)
  = [{| f_url := "https://api.openai.com/v1/audio/speech";
        f_method := "POST";
        f_headers := [("Authorization", "Bearer k1");
                      ("Content-Type", "application/json")];
        f_body := Some ("{" +:+ JS.json_quote "model" +:+ ":"
                        +:+ JS.json_quote "tts-1" +:+ ","
                        +:+ JS.json_quote "input" +:+ ":"
                        +:+ JS.json_quote "hi" +:+ ","
                        +:+ JS.json_quote "voice" +:+ ":"
                        +:+ JS.json_quote "alloy" +:+ "}");
        f_redirect := None |}]
  ∧ JS.json_quote "hi" = String JS.dquote ("hi" +:+ String JS.dquote EmptyString)
  ∧ JS.dquote = ascii_of_nat 34.
Proof. repeat split; vm_compute; reflexivity. Qed.

(** A number as text is posted as JavaScript prints it, and a search text
    that is present is the one searched for. *)
Example number_and_query_are_used :
  f_body <$> calls (tts ∅ (λ _, inl (mkExn "unreachable"))
                      (mkReq "POST" ∅ (Some (JObj [("text", JNum "1e+21")]))))
  = [Some ("{" +:+ JS.json_quote "model" +:+ ":" +:+ JS.json_quote "tts-1"
           +:+ "," +:+ JS.json_quote "input" +:+ ":1e+21,"
           +:+ JS.json_quote "voice" +:+ ":" +:+ JS.json_quote "nova" +:+ "}")]
  ∧ calls (newsapi (λ _, inr JNull) ∅ (λ _, inl (mkExn "unreachable"))
             (mkReq "GET" {[ "q" := JS.QStr "gpt 5" ]} None))
    = [GET ("https://newsapi.org/v2/everything?q=gpt%205"
            +:+ "&sortBy=publishedAt&pageSize=10&apiKey=undefined")].
Proof. split; vm_compute; reflexivity. Qed.

Lemma prefix_append (p s : string) : String.prefix p (p +:+ s) = true.
Proof.
  induction p as [|c p IH]; simpl; [by destruct s|].
  destruct (ascii_dec c c); [exact IH | done].
Qed.

(** X11: a request cannot redirect a handler: every call goes to the
    handler's own endpoint (the news search, the news-data API, the one
    spreadsheet) as a GET without headers or body. *)
Theorem upstream_endpoints_are_fixed
    (JSON_parse : string → Exn + json) (env : gmap string string)
    (up : Upstream) (req : Req) :
  let plain_get (rq : FetchReq) :=
    f_method rq = "GET" ∧ f_headers rq = [] ∧ f_body rq = None in
  (∀ rq, rq ∈ calls (newsapi JSON_parse env up req) →
     String.prefix "https://newsapi.org/v2/everything?q=" (f_url rq) = true
     ∧ plain_get rq)
  ∧ (∀ rq, rq ∈ calls (newsdata JSON_parse env up req) →
       String.prefix "https://newsdata.io/api/1/news?apikey=" (f_url rq) = true
       ∧ plain_get rq)
  ∧ (∀ rq, rq ∈ calls (sheets up req) →
       String.prefix ("https://docs.google.com/spreadsheets/d/"
                      +:+ "11a-_IWhljPJHeKV8vdke-JiLmm_KCq-bedSceKB0kZI"
                      +:+ "/export?format=csv&gid=") (f_url rq) = true
       ∧ plain_get rq).
Proof.
  intros plain_get. subst plain_get. cbn beta.
  destruct (news_handlers_fetch_once JSON_parse env up req)
    as ((_ & ->) & (_ & ->)).
  destruct (sheets_fetches_once up req) as (_ & ->).
  repeat split;
    try match goal with
        | H : _ ∈ [_] |- _ => apply list_elem_of_singleton in H as ->
        end; try reflexivity.
  - apply (prefix_append "https://newsapi.org/v2/everything?q=").
  - apply (prefix_append "https://newsdata.io/api/1/news?apikey=").
  - apply (prefix_append
             ("https://docs.google.com/spreadsheets/d/"
              +:+ "11a-_IWhljPJHeKV8vdke-JiLmm_KCq-bedSceKB0kZI"
              +:+ "/export?format=csv&gid=")).
Qed.

(** *** The encoded query *)

Lemma encode_cons_safe (c : ascii) (rest : string) :
  all_chars uri_safe (JS.encodeURIComponent (String c rest))
  = all_chars uri_safe (JS.encodeURIComponent rest).
Proof. destruct c as [[] [] [] [] [] [] [] []]; reflexivity. Qed.

Lemma encode_cons_decode (c : ascii) (rest : string) :
  percent_decode (JS.encodeURIComponent (String c rest))
  = String c (percent_decode (JS.encodeURIComponent rest)).
Proof. destruct c as [[] [] [] [] [] [] [] []]; reflexivity. Qed.

Lemma encode_safe (s : string) :
  all_chars uri_safe (JS.encodeURIComponent s) = true.
Proof.
  induction s as [|c s IH]; [reflexivity|]. by rewrite encode_cons_safe.
Qed.

Lemma decode_encode (s : string) :
  percent_decode (JS.encodeURIComponent s) = s.
Proof.
  induction s as [|c s IH]; [reflexivity|].
  by rewrite encode_cons_decode, IH.
Qed.

(** The characters that separate or end a query parameter are not safe. *)
Example separators_are_not_safe :
  forallb (λ c, negb (uri_safe c)) ["&"; "="; "#"; "?"; "/"; " "; "+"; ";"]%char
  = true.
Proof. reflexivity. Qed.

(** X12: both news handlers send the search text ([q], or the default when
    [q] is missing or empty) percent-encoded: the encoded text is made of
    unreserved characters and [%] only, so it cannot end or add a parameter
    of the upstream URL, and it decodes to exactly the search text. *)
Theorem query_is_sent_encoded
    (JSON_parse : string → Exn + json) (env : gmap string string)
    (up : Upstream) (req : Req) :
  let text :=
    JS.qval_str (JS.qval_or (query req !! "q") "artificial intelligence") in
  ∃ e,
    all_chars uri_safe e = true
    ∧ percent_decode e = text
    ∧ calls (newsapi JSON_parse env up req)
      = [GET ("https://newsapi.org/v2/everything?q=" +:+ e
              +:+ "&sortBy=publishedAt&pageSize="
              +:+ JS.qval_str (JS.qval_default (query req !! "pageSize") "10")
              +:+ "&apiKey=" +:+ JS.env_str (env !! "NEWSAPI_KEY"))]
    ∧ calls (newsdata JSON_parse env up req)
      = [GET ("https://newsdata.io/api/1/news?apikey="
              +:+ JS.env_str (env !! "NEWSDATA_KEY")
              +:+ "&q=" +:+ e +:+ "&language="
              +:+ JS.qval_str (JS.qval_default (query req !! "language") "en"))].
Proof.
  intros text.
  destruct (news_handlers_fetch_once JSON_parse env up req)
    as ((_ & ->) & (_ & ->)).
  exists (JS.encodeURIComponent text).
  split; [apply encode_safe|]. split; [apply decode_encode|].
  split; reflexivity.
Qed.

End HttpMore.

(** ** Job registry, further properties *)

Module JobsMore.
Import Jobs Aux.
Import JobsFacts.

Set Warnings "-clear-no-such-hyp".

(** *** What is ever written *)

(** X13: in every run, repeated identifiers and failing work included, a
    record's status is 'running' or 'completed': the worker never writes
    'failed', and no record is ever 'queued'. *)
Theorem only_running_or_completed
    (steps : list Step) (evs : list Event) (id : string) (j : Job) :
  jobs (run steps evs init) !! id = Some j →
  status j = running ∨ status j = completed.
Proof.
  set (J := λ s : State,
    (∀ (id : string) (j : Job), jobs s !! id = Some j →
       status j = running ∨ status j = completed)
    ∧ (∀ (k : nat) (t : Thread), threads s !! k = Some t →
         worker_code (t_code t))).
  assert (Hstep : ∀ ev s, J s → J (step steps ev s)).
  { intros [id0 | k raises] s [Hst Hcode]; cbn [step].
    - split; cbn [generate fst jobs threads].
      + intros id' j'. destruct (decide (id' = id0)) as [-> | Hne].
        * rewrite lookup_insert_eq. intros [= <-]. by left.
        * rewrite lookup_insert_ne by congruence. apply Hst.
      + intros k t Hk. apply lookup_app_Some in Hk as [Hk | [_ Hk]]; [eauto|].
        apply list_lookup_singleton_Some in Hk as [_ <-].
        apply worker_code_do_generation.
    - destruct (tick_cases k raises s)
        as [-> | (id0 & i & rest & Hk & [(js & Hexec & ->) | ->])];
        [done | |]; split; cbn; try assumption.
      + intros id' j'. rewrite (exec_lookup _ id' _ _ _ _ Hexec).
        case_decide as Heq; [|apply Hst].
        destruct (jobs s !! id0) as [j0|] eqn:Hj0; [|done].
        intros [= <-].
        destruct (worker_code_status i rest j0 (Hcode _ _ Hk))
          as [-> | [-> _]]; [eauto | by right].
      + intros k' t' Hk'.
        destruct (lookup_recode _ _ _ _ _ _ _ Hk Hk') as [[-> ->] | [_ Hold]];
          [|eauto].
        eapply worker_code_tail. exact (Hcode _ _ Hk).
      + intros k' t' Hk'.
        destruct (lookup_recode _ _ _ _ _ _ _ Hk Hk') as [[-> ->] | [_ Hold]];
          [exact I | eauto]. }
  assert (Hrun : ∀ evs s, J s → J (run steps evs s)).
  { intros evs'. induction evs' as [|ev evs' IH]; intros s HJ; [exact HJ|].
    exact (IH _ (Hstep ev s HJ)). }
  assert (Hinit : J init).
  { split; cbn; intros *; [rewrite lookup_empty | rewrite lookup_nil]; done. }
  apply (Hrun evs init Hinit).
Qed.

Lemma only_running_or_completed_witness :
  let steps := [mkStep 50 "Building slides..."] in
  let evs := [Generate "ab12cd34"; Tick 0 false; Tick 0 false; Tick 0 true;
              Generate "ab12cd34"; Tick 1 false] in
  let j := {| status := running; percent := 50; message := "Starting..." |} in
  jobs (run steps evs init) !! "ab12cd34" = Some j
  ∧ (status j = running ∨ status j = completed).
Proof.
  intros steps evs j.
  assert (Hj : jobs (run steps evs init) !! "ab12cd34" = Some j)
    by (vm_compute; reflexivity).
  split; [exact Hj|].
  exact (only_running_or_completed steps evs "ab12cd34" j Hj).
Defined.

(** *** The registry only grows *)

Lemma tick_dom (k : nat) (raises : bool) (s : State) :
  dom (jobs (tick k raises s)) = dom (jobs s)
  ∧ length (threads (tick k raises s)) = length (threads s).
Proof.
  destruct (tick_cases k raises s)
    as [-> | (id0 & i & rest & Hk & [(js & Hexec & ->) | ->])];
    [done | |]; cbn; rewrite length_insert; split; try done.
  apply set_eq. intros id. rewrite !elem_of_dom.
  rewrite (exec_lookup _ id _ _ _ _ Hexec).
  case_decide as Heq; [subst id; by rewrite fmap_is_Some | done].
Qed.

(** X14: nothing is ever removed: after any run the keys of the registry
    are those it had plus every identifier drawn since, and there is one
    more thread for each request made, with no bound on either. *)
Theorem registry_only_grows
    (steps : list Step) (evs : list Event) (s : State) :
  dom (jobs (run steps evs s)) = dom (jobs s) ∪ list_to_set (generated evs)
  ∧ length (threads (run steps evs s))
    = (length (threads s) + length (generated evs))%nat.
Proof.
  revert s. induction evs as [|[id | k raises] evs IH]; intros s.
  - cbn. split; [set_solver | lia].
  - change (run steps (Generate id :: evs) s)
      with (run steps evs (generate steps id s).1).
    change (generated (Generate id :: evs)) with (id :: generated evs).
    destruct (IH (generate steps id s).1) as [H1 H2]. rewrite H1, H2.
    cbn [generate fst jobs threads].
    rewrite dom_insert_L, length_app. cbn. split; [set_solver | lia].
  - change (run steps (Tick k raises :: evs) s)
      with (run steps evs (tick k raises s)).
    change (generated (Tick k raises :: evs)) with (generated evs).
    destruct (IH (tick k raises s)) as [H1 H2]. rewrite H1, H2.
    destruct (tick_dom k raises s) as [H3 H4]. rewrite H3, H4. done.
Qed.

(** *** A worker that is left to run *)

Lemma tick_at (k : nat) (id : string) (i : Instr) (rest : list Instr)
    (j : Job) (s : State) :
  threads s !! k = Some {| t_job := id; t_code := i :: rest |} →
  jobs s !! id = Some j →
  threads (tick k false s) !! k = Some {| t_job := id; t_code := rest |}
  ∧ jobs (tick k false s) !! id = Some (update i j).
Proof.
  intros Hk Hj. unfold tick. rewrite Hk.
  assert (Hlt : (k < length (threads s))%nat) by (eapply lookup_lt_Some; eauto).
  destruct i; cbn; unfold assign; rewrite ?Hj; cbn;
    (split; [by apply list_lookup_insert_eq |]);
    rewrite ?lookup_insert_eq; done.
Qed.

Lemma worker_finishes (steps steps' : list Step) (k : nat) (id : string) :
  ∀ (s : State) (j : Job),
    threads s !! k = Some {| t_job := id; t_code := do_generation steps' |} →
    jobs s !! id = Some j →
    jobs (run steps (replicate (3 * length steps' + 1) (Tick k false)) s) !! id
    = Some {| status := completed;
              percent := final_percent steps' (percent j);
              message := final_message steps' (message j) |}.
Proof.
  induction steps' as [|st rest IH]; intros s j Hk Hj.
  - cbn. destruct (tick_at _ _ _ _ _ _ Hk Hj) as [_ ->]. done.
  - replace (3 * length (st :: rest) + 1)%nat
      with (S (S (S (3 * length rest + 1)))) by (cbn; lia).
    change (do_generation (st :: rest))
      with (SetPercent (step_percent st) :: SetMessage (step_name st)
            :: Work :: do_generation rest) in Hk.
    cbn [replicate run foldl step].
    destruct (tick_at _ _ _ _ _ _ Hk Hj) as [Hk1 Hj1].
    destruct (tick_at _ _ _ _ _ _ Hk1 Hj1) as [Hk2 Hj2].
    destruct (tick_at _ _ _ _ _ _ Hk2 Hj2) as [Hk3 Hj3].
    pose proof (IH _ _ Hk3 Hj3) as Hend. unfold run in Hend.
    rewrite Hend. cbn. unfold final_percent, final_message.
    rewrite last_cons. destruct (last rest); done.
Qed.

(** X15: a job whose worker is left to run with no step raising completes:
    after the request and three actions per step plus one, the record is
    'completed' and carries the percent and the message of the last step
    (0 and 'Starting...' when there is none); completing does not itself
    set the percent to 100. *)
Theorem job_completes (steps : list Step) (id : string) (s : State) :
  let k := length (threads s) in
  jobs (run steps
          (Generate id :: replicate (3 * length steps + 1) (Tick k false)) s)
    !! id
  = Some {| status := completed;
            percent := final_percent steps 0;
            message := final_message steps "Starting..." |}.
Proof.
  intros k. cbn [run foldl step].
  apply (worker_finishes steps steps k id
           (generate steps id s).1
           {| status := running; percent := 0; message := "Starting..." |}).
  - cbn. by rewrite list_lookup_middle.
  - cbn. apply lookup_insert_eq.
Qed.

(** *** A worker that has ended *)

Lemma inv_run (steps : list Step) (evs : list Event) :
  ∀ s, inv s → fresh_run steps evs s → inv (run steps evs s).
Proof.
  induction evs as [|ev evs IH]; cbn; intros s Hinv Hfresh; [done|].
  destruct Hfresh as [Hev Hrest]. apply IH; [by apply inv_step | done].
Qed.

Lemma frozen_step (steps : list Step) (ev : Event) (s : State)
    (k : nat) (id : string) :
  inv s → event_fresh ev s →
  threads s !! k = Some {| t_job := id; t_code := [] |} →
  threads (step steps ev s) !! k = Some {| t_job := id; t_code := [] |}
  ∧ jobs (step steps ev s) !! id = jobs s !! id.
Proof.
  intros Hinv Hev Hk. split.
  - destruct ev as [id0 | k' raises]; cbn.
    + apply lookup_app_l_Some. exact Hk.
    + destruct (tick_cases k' raises s)
        as [-> | (id0 & i & rest & Hk' & [(js & Hexec & ->) | ->])];
        [done | |]; cbn;
        (rewrite list_lookup_insert_ne; [done | intros ->; congruence]).
  - destruct (inv_known s Hinv _ _ Hk) as [j Hj]. cbn in Hj.
    destruct (step_job steps ev s id j Hev Hj)
      as [Hsame | (k' & i & rest & Hk' & _)]; [congruence|].
    assert (k' = k) as -> by (eapply (inv_unique s Hinv); eauto).
    congruence.
Qed.

Lemma frozen_run (steps : list Step) (evs : list Event)
    (k : nat) (id : string) :
  ∀ s, inv s → fresh_run steps evs s →
    threads s !! k = Some {| t_job := id; t_code := [] |} →
    jobs (run steps evs s) !! id = jobs s !! id.
Proof.
  induction evs as [|ev evs IH]; cbn; intros s Hinv Hfresh Hk; [done|].
  destruct Hfresh as [Hev Hrest].
  destruct (frozen_step steps ev s k id Hinv Hev Hk) as [Hk' Hj'].
  rewrite <- Hj'. apply IH; [by apply inv_step | done | done].
Qed.

(** X16: once the worker of a job has ended, by completing or on an
    exception, the record never changes again in a run in which identifiers
    do not repeat: every later read gives the same record. *)
Theorem finished_job_is_frozen
    (steps : list Step) (evs1 evs2 : list Event) (k : nat) (id : string) :
  fresh_ids (evs1 ++ evs2) →
  threads (run steps evs1 init) !! k = Some {| t_job := id; t_code := [] |} →
  jobs (run steps (evs1 ++ evs2) init) !! id
  = jobs (run steps evs1 init) !! id.
Proof.
  intros Hfresh Hk.
  destruct (fresh_run_app steps _ _ _ (fresh_from_init steps _ Hfresh))
    as [Hf1 Hf2].
  rewrite run_app.
  apply (frozen_run steps evs2 k id); [|done|done].
  by apply inv_run; [apply inv_init|].
Qed.

Lemma finished_job_is_frozen_witness :
  let steps := [mkStep 50 "Building slides..."] in
  let evs1 := [Generate "ab12cd34"; Tick 0 false; Tick 0 false;
               Tick 0 false; Tick 0 false] in
  let evs2 := [Tick 0 false; Generate "ef56ab78"; Tick 1 false; Tick 0 true] in
  fresh_ids (evs1 ++ evs2)
  ∧ threads (run steps evs1 init) !! 0%nat
    = Some {| t_job := "ab12cd34"; t_code := [] |}
  ∧ jobs (run steps (evs1 ++ evs2) init) !! "ab12cd34"
    = Some {| status := completed; percent := 50;
              message := "Building slides..." |}.
Proof.
  intros steps evs1 evs2.
  assert (Hfresh : fresh_ids (evs1 ++ evs2)).
  { unfold fresh_ids. cbn. apply NoDup_cons. split; [|apply NoDup_singleton].
    intros Hin. apply list_elem_of_singleton in Hin. discriminate. }
  assert (Hk : threads (run steps evs1 init) !! 0%nat
               = Some {| t_job := "ab12cd34"; t_code := [] |})
    by reflexivity.
  split; [exact Hfresh|]. split; [exact Hk|].
  rewrite (finished_job_is_frozen steps evs1 evs2 0 "ab12cd34" Hfresh Hk).
  vm_compute. reflexivity.
Defined.

(** X17: when the work of a step raises, the job is never marked: its
    record stays exactly as it was, 'running', at every later read (in a
    run in which identifiers do not repeat). *)
Theorem failed_work_leaves_running
    (steps : list Step) (evs1 evs2 : list Event) (k : nat) (id : string)
    (rest : list Instr) :
  fresh_ids (evs1 ++ Tick k true :: evs2) →
  threads (run steps evs1 init) !! k
  = Some {| t_job := id; t_code := Work :: rest |} →
  ∃ j, jobs (run steps evs1 init) !! id = Some j
       ∧ status j = running
       ∧ jobs (run steps (evs1 ++ Tick k true :: evs2) init) !! id = Some j.
Proof.
  intros Hfresh Hk.
  destruct (fresh_run_app steps _ _ _ (fresh_from_init steps _ Hfresh))
    as [Hf1 [_ Hf2]].
  pose proof (inv_run steps evs1 init inv_init Hf1) as Hinv.
  destruct (inv_known _ Hinv _ _ Hk) as [j Hj]. cbn in Hj.
  exists j. split; [exact Hj|]. split.
  { eapply (inv_live _ Hinv); eauto. }
  rewrite run_app. cbn [run foldl step]. cbn [step] in Hf2.
  assert (Htick : tick k true (run steps evs1 init)
                  = {| jobs := jobs (run steps evs1 init);
                       threads := <[k := {| t_job := id; t_code := [] |}]>
                                    (threads (run steps evs1 init)) |}).
  { unfold tick. fold (run steps evs1 init). rewrite Hk. reflexivity. }
  fold (run steps evs1 init) in *.
  rewrite <- Hj.
  change (foldl (λ s ev, step steps ev s) (tick k true (run steps evs1 init))
            evs2)
    with (run steps evs2 (tick k true (run steps evs1 init))).
  rewrite (frozen_run steps evs2 k id (tick k true (run steps evs1 init))).
  - rewrite Htick. reflexivity.
  - by apply inv_tick.
  - exact Hf2.
  - rewrite Htick. cbn. apply list_lookup_insert_eq.
    eapply lookup_lt_Some; eauto.
Qed.

Lemma failed_work_leaves_running_witness :
  let steps := [mkStep 50 "Building slides..."] in
  let evs1 := [Generate "ab12cd34"; Tick 0 false; Tick 0 false] in
  let evs2 := [Tick 0 false; Tick 0 false] in
  fresh_ids (evs1 ++ Tick 0 true :: evs2)
  ∧ threads (run steps evs1 init) !! 0%nat
    = Some {| t_job := "ab12cd34"; t_code := [Work; SetStatus completed] |}
  ∧ ∃ j, status j = running
         ∧ jobs (run steps (evs1 ++ Tick 0 true :: evs2) init) !! "ab12cd34"
           = Some j.
Proof.
  intros steps evs1 evs2.
  assert (Hfresh : fresh_ids (evs1 ++ Tick 0 true :: evs2))
    by apply NoDup_singleton.
  assert (Hk : threads (run steps evs1 init) !! 0%nat
               = Some {| t_job := "ab12cd34";
                         t_code := [Work; SetStatus completed] |})
    by reflexivity.
  split; [exact Hfresh|]. split; [exact Hk|].
  destruct (failed_work_leaves_running steps evs1 evs2 0 "ab12cd34" _ Hfresh Hk)
    as (j & _ & Hst & Hj).
  exists j. split; assumption.
Defined.

(** X18: a worker writes to the record of its own job only: an action of a
    thread leaves the record of every other identifier as it was. *)
Theorem worker_writes_only_its_record
    (k : nat) (raises : bool) (s : State) (id : string) :
  (∀ t, threads s !! k = Some t → t_job t ≠ id) →
  jobs (tick k raises s) !! id = jobs s !! id.
Proof.
  intros Hother.
  destruct (tick_cases k raises s)
    as [-> | (id0 & i & rest & Hk & [(js & Hexec & ->) | ->])];
    [done | | done].
  cbn. rewrite (exec_lookup _ id _ _ _ _ Hexec).
  case_decide as Heq; [|done]. subst id0. by destruct (Hother _ Hk).
Qed.

Lemma worker_writes_only_its_record_witness :
  let steps := [mkStep 50 "Building slides..."] in
  let s := run steps [Generate "ab12cd34"; Generate "ef56ab78"] init in
  (∀ t, threads s !! 0%nat = Some t → t_job t ≠ "ef56ab78")
  ∧ jobs (tick 0 false s) !! "ef56ab78" = jobs s !! "ef56ab78".
Proof.
  intros steps s.
  assert (H : ∀ t, threads s !! 0%nat = Some t → t_job t ≠ "ef56ab78").
  { intros t [= <-]. discriminate. }
  split; [exact H|].
  exact (worker_writes_only_its_record 0 false s "ef56ab78" H).
Defined.

End JobsMore.

(** ** Audio briefing and voice chat, further properties *)

Module AudioFacts.
Import Voice Audio.

(** X19: a call of [audio_summary] gives either the audio, spoken from the
    script that the chat service wrote for the article, with the two
    services called once each and in this order; or one exception, that of
    the first step that failed, with the later service not called. *)
Theorem audio_summary_all_or_nothing
    (OpenAI : Exn + unit) (format : json → string)
    (completions_create : string → string → Exn + string)
    (speech_create : string → Exn + string) (data : json) :
  let result :=
    audio_summary OpenAI format completions_create speech_create data [] in
  match result.1 with
  | inr bytes =>
      ∃ title summary script,
        OpenAI = inr ()
        ∧ subscript data "title" = inr title
        ∧ subscript data "summary" = inr summary
        ∧ completions_create SUMMARY_PROMPT (article format title summary)
          = inr script
        ∧ speech_create script = inr bytes
        ∧ result.2 = [Chat SUMMARY_PROMPT (article format title summary);
                      Speech script]
  | inl e =>
      (result.2 = []
       ∧ (OpenAI = inl e
          ∨ subscript data "title" = inl e
          ∨ subscript data "summary" = inl e))
      ∨ (∃ title summary,
           result.2 = [Chat SUMMARY_PROMPT (article format title summary)]
           ∧ completions_create SUMMARY_PROMPT (article format title summary)
             = inl e)
      ∨ (∃ title summary script,
           result.2 = [Chat SUMMARY_PROMPT (article format title summary);
                       Speech script]
           ∧ completions_create SUMMARY_PROMPT (article format title summary)
             = inr script
           ∧ speech_create script = inl e)
  end.
Proof.
  intros result. subst result.
  unfold audio_summary, mbind, P_bind, mret, P_ret, lift, call.
  destruct OpenAI as [e | []]; cbn -[article SUMMARY_PROMPT].
  { left. split; [reflexivity | by left]. }
  destruct (subscript data "title") as [e | title];
    cbn -[article SUMMARY_PROMPT].
  { left. split; [reflexivity | right; by left]. }
  destruct (subscript data "summary") as [e | summary];
    cbn -[article SUMMARY_PROMPT].
  { left. split; [reflexivity | right; by right]. }
  destruct (completions_create SUMMARY_PROMPT (article format title summary))
    as [e | script] eqn:Hscript; cbn -[article SUMMARY_PROMPT].
  { right; left. by exists title, summary. }
  destruct (speech_create script) as [e | bytes] eqn:Hbytes;
    cbn -[article SUMMARY_PROMPT].
  { right; right. by exists title, summary, script. }
  by exists title, summary, script.
Qed.

(** X20: a request to [audio_summary] that lacks the title or the summary
    raises a [KeyError] for the first field that is missing, before any
    service is called. *)
Theorem audio_summary_missing_field
    (format : json → string)
    (completions_create : string → string → Exn + string)
    (speech_create : string → Exn + string)
    (fields : list (string * json)) :
  assoc "title" fields = None ∨ assoc "summary" fields = None →
  audio_summary (inr ()) format completions_create speech_create
    (JObj fields) []
  = (inl (mkExn ("KeyError: "
                 +:+ match assoc "title" fields with
                     | Some _ => "summary"
                     | None => "title"
                     end)),
     []).
Proof.
  intros Hmissing.
  unfold audio_summary, mbind, P_bind, mret, P_ret, lift, call, subscript.
  destruct (assoc "title" fields) as [title|]; [|reflexivity].
  destruct Hmissing as [? | ->]; [done | reflexivity].
Qed.

Lemma audio_summary_missing_field_witness :
  let fields := [("title", JStr "AI news"); ("quote", JStr "Einstein said")] in
  (assoc "title" fields = None ∨ assoc "summary" fields = None)
  ∧ audio_summary (inr ()) (λ _, "x") (λ _ _, inr "script") (λ _, inr "mp3")
      (JObj fields) []
    = (inl (mkExn "KeyError: summary"), []).
Proof.
  intros fields.
  assert (H : assoc "title" fields = None ∨ assoc "summary" fields = None)
    by (right; reflexivity).
  split; [exact H|].
  exact (audio_summary_missing_field (λ _, "x") (λ _ _, inr "script")
           (λ _, inr "mp3") fields H).
Defined.

(** X21: the two endpoints read two fields each and nothing else of the
    request: [audio_summary] the title and the summary (not the quote),
    [voice_chat] the audio and the title (not the summary).  Requests that
    agree on these fields get the same result and cause the same calls. *)
Theorem unused_request_fields
    (OpenAI : Exn + unit) (b64decode : json → Exn + string)
    (b64encode : string → string) (format : json → string)
    (transcriptions_create : string → Exn + string)
    (completions_create : string → string → Exn + string)
    (speech_create : string → Exn + string) (data1 data2 : json) :
  subscript data1 "title" = subscript data2 "title" →
  (subscript data1 "summary" = subscript data2 "summary" →
   audio_summary OpenAI format completions_create speech_create data1 []
   = audio_summary OpenAI format completions_create speech_create data2 [])
  ∧ (subscript data1 "audio" = subscript data2 "audio" →
     voice_chat OpenAI b64decode b64encode format transcriptions_create
       completions_create speech_create data1 []
     = voice_chat OpenAI b64decode b64encode format transcriptions_create
         completions_create speech_create data2 []).
Proof.
  intros Htitle. split; intros Hother.
  - unfold audio_summary, mbind, P_bind, lift. by rewrite Htitle, Hother.
  - unfold voice_chat, mbind, P_bind, lift. by rewrite Htitle, Hother.
Qed.

Lemma unused_request_fields_witness :
  let data1 := JObj [("title", JStr "AI news"); ("summary", JStr "short");
                     ("quote", JStr "Einstein said")] in
  let data2 := JObj [("summary", JStr "short"); ("title", JStr "AI news")] in
  let fmt (j : json) := match j with JStr s => s | _ => "?" end in
  subscript data1 "title" = subscript data2 "title"
  ∧ audio_summary (inr ()) fmt (λ _ user, inr user) (λ s, inr s) data1 []
    = audio_summary (inr ()) fmt (λ _ user, inr user) (λ s, inr s) data2 [].
Proof.
  intros data1 data2 fmt.
  assert (H : subscript data1 "title" = subscript data2 "title")
    by reflexivity.
  split; [exact H|].
  exact (proj1 (unused_request_fields (inr ()) (λ _, inl (mkExn "unused"))
                  (λ s, s) fmt (λ _, inl (mkExn "unused"))
                  (λ _ user, inr user) (λ s, inr s) data1 data2 H)
           eq_refl).
Defined.

(** X22: [voice_chat] never replies to a request without a title, such as
    the body the page builds from the recording alone: it raises, after at
    most the transcription call, and neither the chat nor the speech service
    is called. *)
Theorem voice_chat_needs_title
    (OpenAI : Exn + unit) (b64decode : json → Exn + string)
    (b64encode : string → string) (format : json → string)
    (transcriptions_create : string → Exn + string)
    (completions_create : string → string → Exn + string)
    (speech_create : string → Exn + string) (data : json) (e : Exn) :
  subscript data "title" = inl e →
  let result :=
    voice_chat OpenAI b64decode b64encode format transcriptions_create
      completions_create speech_create data [] in
  ∃ e',
    result.1 = inl e'
    ∧ (result.2 = []
       ∨ ∃ audio_bytes,
           result.2 = [Transcribe audio_bytes]
           ∧ (transcriptions_create audio_bytes = inl e'
              ∨ (∃ question, transcriptions_create audio_bytes = inr question)
                ∧ e' = e)).
Proof.
  intros Htitle result. subst result.
  unfold voice_chat, mbind, P_bind, mret, P_ret, lift, call.
  rewrite Htitle.
  destruct OpenAI as [e0 | []]; cbn; [eauto|].
  destruct (subscript data "audio") as [e0 | a]; cbn; [eauto|].
  destruct (b64decode a) as [e0 | audio_bytes]; cbn; [eauto|].
  destruct (transcriptions_create audio_bytes) as [e0 | q] eqn:Hq; cbn.
  - exists e0. split; [done|]. right. exists audio_bytes. auto.
  - exists e. split; [done|]. right. exists audio_bytes. eauto.
Qed.

Lemma voice_chat_needs_title_witness :
  let data := JObj [("audio", JStr "SGVsbG8gV29ybGQ")] in
  subscript data "title" = inl (mkExn "KeyError: title")
  ∧ voice_chat (inr ()) (λ _, inr "Hello World") (λ s, s) (λ _, "x")
      (λ _, inr "What is new?") (λ _ _, inr "A lot.") (λ _, inr "mp3") data []
    = (inl (mkExn "KeyError: title"), [Transcribe "Hello World"]).
Proof.
  intros data.
  assert (H : subscript data "title" = inl (mkExn "KeyError: title"))
    by reflexivity.
  split; [exact H|].
  destruct (voice_chat_needs_title (inr ()) (λ _, inr "Hello World") (λ s, s)
              (λ _, "x") (λ _, inr "What is new?") (λ _ _, inr "A lot.")
              (λ _, inr "mp3") data _ H) as (e' & He' & _).
  cbn in He'. injection He' as <-. reflexivity.
Defined.

End AudioFacts.
